(** * cupy.linalg.einsum: a shallow embedding and its properties

    The development follows [cupy/linalg/einsum.py]: the subscript
    parser and validator of [einsum], and the four view calculators
    ([SingleViewCalculator], [SummedViewCalculator],
    [TransposedViewCalculator], [CombinedViewCalculator]) that the
    entry point drives in a fixed order.

    Python strings are lists of characters, Python integers are [Z]
    where the code relies on [-1] (the result of [str.find]) and [nat]
    where it enumerates positions.  Calls into the array layer are
    recorded in a trace, so that the order of validation and of array
    operations can be stated. *)

From Stdlib Require Import String Ascii List ZArith Lia Bool Arith.
From Stdlib Require Import Permutation Sorted.
Import ListNotations.

Set Implicit Arguments.

(** ** Characters and subscripts *)

(** A Python string literal, as the list of its characters. *)
Definition py (s : string) : list ascii := list_ascii_of_string s.

Definition mem (c : ascii) (l : list ascii) : bool :=
  existsb (Ascii.eqb c) l.

(** [collections.Counter(l)[c]] *)
Fixpoint count (c : ascii) (l : list ascii) : nat :=
  match l with
  | [] => 0
  | x :: l' => (if Ascii.eqb x c then 1 else 0) + count c l'
  end.

(** The distinct elements of [l], in the order of first occurrence. *)
Fixpoint distinct (l : list ascii) : list ascii :=
  match l with
  | [] => []
  | x :: l' => x :: filter (fun y => negb (Ascii.eqb y x)) (distinct l')
  end.

(** [set(a) - set(b)], as the elements of [a] that are not in [b]. *)
Definition set_diff (a b : list ascii) : list ascii :=
  filter (fun c => negb (mem c b)) a.

(** [s.find(c)] for a one-character needle: the first index, or [-1]. *)
Fixpoint find_char (c : ascii) (s : list ascii) : Z :=
  match s with
  | [] => (-1)%Z
  | x :: s' =>
      if Ascii.eqb x c then 0%Z
      else let r := find_char c s' in
           if (r =? -1)%Z then (-1)%Z else (r + 1)%Z
  end.

(** [s.find('->')] *)
Fixpoint find_arrow (s : list ascii) : Z :=
  match s with
  | [] => (-1)%Z
  | x :: s' =>
      match s' with
      | y :: _ =>
          if Ascii.eqb x "-" && Ascii.eqb y ">" then 0%Z
          else let r := find_arrow s' in
               if (r =? -1)%Z then (-1)%Z else (r + 1)%Z
      | [] => (-1)%Z
      end
  end.

(** [s.replace(c, '')] *)
Definition remove_char (c : ascii) (s : list ascii) : list ascii :=
  filter (fun x => negb (Ascii.eqb x c)) s.

(** [s.split(',')]: always at least one piece. *)
Fixpoint split_comma (s : list ascii) : list (list ascii) :=
  match s with
  | [] => [[]]
  | x :: s' =>
      if Ascii.eqb x ","
      then [] :: split_comma s'
      else match split_comma s' with
           | p :: ps => (x :: p) :: ps
           | [] => [[x]]
           end
  end.

(** [[i for i, ch in enumerate(s) if ch == c]], counted from [base]. *)
Fixpoint positions_from (base : nat) (c : ascii) (s : list ascii) : list nat :=
  match s with
  | [] => []
  | x :: s' =>
      if Ascii.eqb x c
      then base :: positions_from (S base) c s'
      else positions_from (S base) c s'
  end.

Definition positions (c : ascii) (s : list ascii) : list nat :=
  positions_from 0 c s.

(** [string.ascii_letters] *)
Definition ascii_letters : list ascii :=
  py "abcdefghijklmnopqrstuvwxyzABCDEFGHIJKLMNOPQRSTUVWXYZ".

(** Insertion sort by character code: [sorted(...)] on characters. *)
Fixpoint insert_label (c : ascii) (l : list ascii) : list ascii :=
  match l with
  | [] => [c]
  | x :: l' =>
      if nat_of_ascii c <=? nat_of_ascii x then c :: l
      else x :: insert_label c l'
  end.

Fixpoint sorted_labels (l : list ascii) : list ascii :=
  match l with
  | [] => []
  | x :: l' => insert_label x (sorted_labels l')
  end.

(** [sorted(...)] on integers. *)
Fixpoint insert_Z (z : Z) (l : list Z) : list Z :=
  match l with
  | [] => [z]
  | x :: l' => if (z <=? x)%Z then z :: l else x :: insert_Z z l'
  end.

Fixpoint sorted_Z (l : list Z) : list Z :=
  match l with
  | [] => []
  | x :: l' => insert_Z x (sorted_Z l')
  end.

(** [a == b] on lists of integers. *)
Fixpoint list_Z_eqb (a b : list Z) : bool :=
  match a, b with
  | [], [] => true
  | x :: a', y :: b' => (x =? y)%Z && list_Z_eqb a' b'
  | _, _ => false
  end.

(** ** Iteration order of Python sets

    The code iterates over [set] objects of characters; Python fixes no
    order for that.  An [iteration] chooses one: any listing of the
    distinct elements. *)

Record iteration := {
  iter_set : list ascii -> list ascii;
  iter_set_perm : forall l, Permutation (iter_set l) (distinct l)
}.

Definition first_occurrence_order : iteration :=
  {| iter_set := distinct;
     iter_set_perm := fun l => Permutation_refl (distinct l) |}.

Definition last_first_order : iteration :=
  {| iter_set := fun l => rev (distinct l);
     iter_set_perm := fun l => Permutation_sym (Permutation_rev (distinct l)) |}.

(** ** Element types

    The numeric element types of the array layer and numpy's
    promotion between them: the common type of two types is the first
    type, in the order below, that both convert to safely. *)

Inductive dtype :=
| bool_ | int8 | uint8 | int16 | uint16 | int32 | uint32 | int64 | uint64
| float16 | float32 | float64 | complex64 | complex128.

Definition dtype_eq_dec (a b : dtype) : {a = b} + {a <> b}.
Proof. decide equality. Defined.

Definition all_dtypes : list dtype :=
  [bool_; int8; uint8; int16; uint16; int32; uint32; int64; uint64;
   float16; float32; float64; complex64; complex128].

Inductive dkind := KBool | KInt | KUInt | KFloat | KComplex.

Definition kind_of (d : dtype) : dkind :=
  match d with
  | bool_ => KBool
  | int8 | int16 | int32 | int64 => KInt
  | uint8 | uint16 | uint32 | uint64 => KUInt
  | float16 | float32 | float64 => KFloat
  | complex64 | complex128 => KComplex
  end.

(** Width in bits; for a complex type, of each component. *)
Definition bits_of (d : dtype) : nat :=
  match d with
  | bool_ => 1
  | int8 | uint8 => 8
  | int16 | uint16 | float16 => 16
  | int32 | uint32 | float32 | complex64 => 32
  | int64 | uint64 | float64 | complex128 => 64
  end.

(** [numpy.can_cast(a, b, 'safe')] *)
Definition can_cast (a b : dtype) : bool :=
  match kind_of a, kind_of b with
  | KBool, _ => true
  | KInt, KInt => bits_of a <=? bits_of b
  | KUInt, KUInt => bits_of a <=? bits_of b
  | KUInt, KInt => bits_of a <? bits_of b
  | (KInt | KUInt), (KFloat | KComplex) =>
      (bits_of a <? bits_of b) || (bits_of b =? 64)
  | KFloat, KFloat => bits_of a <=? bits_of b
  | KFloat, KComplex => bits_of a <=? bits_of b
  | KComplex, KComplex => bits_of a <=? bits_of b
  | _, _ => false
  end.

Definition promote (a b : dtype) : dtype :=
  match find (fun d => can_cast a d && can_cast b d) all_dtypes with
  | Some d => d
  | None => complex128
  end.

(** The type in which [sum] accumulates: small integers widen. *)
Definition sum_dtype (d : dtype) : dtype :=
  match kind_of d with
  | KBool | KInt => int64
  | KUInt => uint64
  | _ => d
  end.

(** ** Errors and the trace of array operations *)

(** The two messages of the operand-count check (lines 218 and 221) and
    of the rank check (lines 229 and 232), named after their text. *)
Inductive count_message := SaysFewerOperands | SaysMoreOperands.
Inductive rank_message := SaysTooManySubscripts (i : nat) | SaysMoreDimensions.

Inductive exn :=
| UsageError
| SubscriptsTypeError
| NotSupportedError
| InvalidSubscriptError (c : ascii)
| NoOperandTypeError
| MalformedArrowError
| UnknownOutputLabelError (c : ascii)
| RepeatedOutputLabelError (c : ascii)
| OperandCountMismatchError (m : count_message)
| RankMismatchError (m : rank_message)
| AssertionError
| IndexError
| AxisError.

(** One entry per call into the array layer. *)
Inductive event :=
| EvAstype (d : dtype)
| EvAsarray (d : dtype)
| EvDiagonal (axis1 axis2 : nat)
| EvRollaxis (start : nat)
| EvTensordot
| EvSum (axes : list nat)
| EvTranspose (axes : list Z).

Definition M (A : Type) : Type := (list event * (exn + A))%type.

Definition ret {A} (x : A) : M A := ([], inr x).
Definition raise {A} (e : exn) : M A := ([], inl e).
Definition emit (ev : event) : M unit := ([ev], inr tt).

Definition bind {A B} (m : M A) (f : A -> M B) : M B :=
  match m with
  | (t, inl e) => (t, inl e)
  | (t, inr x) => let (t', r) := f x in (t ++ t', r)
  end.

Declare Scope einsum_scope.
Delimit Scope einsum_scope with einsum.
Notation "x <- m ;; k" := (bind m (fun x => k))
  (at level 61, m at next level, right associativity) : einsum_scope.
Notation "m ;;; k" := (bind m (fun _ => k))
  (at level 61, right associativity) : einsum_scope.
Open Scope einsum_scope.

Definition trace {A} (m : M A) : list event := fst m.
Definition outcome {A} (m : M A) : exn + A := snd m.

(** [for x in xs: st = body(st, x)] *)
Fixpoint for_each {A S} (xs : list A) (body : S -> A -> M S) (st : S) : M S :=
  match xs with
  | [] => ret st
  | x :: xs' => st' <- body st x ;; for_each xs' body st'
  end.

(** ** The array layer

    Modelled from the spec: the N-dimensional array type and its
    operations [astype], [asarray], [diagonal], [rollaxis], [sum],
    [transpose] and [tensordot] (section 6 of the specification lists
    them as the collaborator contract; their code is not part of the
    reviewed sources).  An array is its element type, its shape and its
    elements as a function of the index.  Elements are integers: a
    conversion between element types changes the type and keeps the
    values, so rounding and overflow are outside this model. *)

Record ndarray := {
  dtype_of : dtype;
  shape : list nat;
  item : list nat -> Z
}.

Definition ndim (a : ndarray) : nat := length (shape a).

Definition insert_at {A} (k : nat) (x : A) (l : list A) : list A :=
  firstn k l ++ x :: skipn k l.

Definition remove_at {A} (k : nat) (l : list A) : list A :=
  firstn k l ++ skipn (S k) l.

(** [a.astype(d)] *)
Definition astype (d : dtype) (a : ndarray) : M ndarray :=
  emit (EvAstype d) ;;;
  ret {| dtype_of := d; shape := shape a; item := item a |}.

(** [cupy.asarray(a, dtype=d)] *)
Definition asarray (d : dtype) (a : ndarray) : M ndarray :=
  emit (EvAsarray d) ;;;
  ret {| dtype_of := d; shape := shape a; item := item a |}.

(** [a.diagonal(0, axis1, axis2)]: both axes are removed and the
    diagonal becomes the last axis. *)
Definition diagonal (axis1 axis2 : nat) (a : ndarray) : M ndarray :=
  emit (EvDiagonal axis1 axis2) ;;;
  if (axis1 <? ndim a) && (axis2 <? ndim a) && negb (axis1 =? axis2) then
    let lo := Nat.min axis1 axis2 in
    let hi := Nat.max axis1 axis2 in
    ret {| dtype_of := dtype_of a;
           shape := remove_at lo (remove_at hi (shape a))
                    ++ [Nat.min (nth axis1 (shape a) 0) (nth axis2 (shape a) 0)];
           item := fun idx =>
                     let k := last idx 0 in
                     item a (insert_at hi k (insert_at lo k (removelast idx))) |}
  else raise AxisError.

(** The position of [p] in [axes]. *)
Fixpoint index_of (p : nat) (axes : list nat) : nat :=
  match axes with
  | [] => 0
  | x :: axes' => if x =? p then 0 else S (index_of p axes')
  end.

(** The view whose axis [k] is axis [nth k axes] of [a]. *)
Definition permute_axes (axes : list nat) (a : ndarray) : ndarray :=
  {| dtype_of := dtype_of a;
     shape := map (fun ax => nth ax (shape a) 0) axes;
     item := fun idx =>
               item a (map (fun p => nth (index_of p axes) idx 0)
                           (seq 0 (ndim a))) |}.

(** [cupy.rollaxis(a, -1, start)]: the last axis moves to [start]. *)
Definition rollaxis_last (start : nat) (a : ndarray) : M ndarray :=
  emit (EvRollaxis start) ;;;
  if (1 <=? ndim a) && (start <=? ndim a) then
    let axis := ndim a - 1 in
    let start' := if axis <? start then start - 1 else start in
    if axis =? start' then ret a
    else ret (permute_axes (insert_at start' axis (remove_at axis (seq 0 (ndim a)))) a)
  else raise AxisError.

Definition is_permutation (n : nat) (axes : list nat) : bool :=
  (length axes =? n) && forallb (fun p => existsb (Nat.eqb p) axes) (seq 0 n).

(** [a.transpose(axes)]: a negative axis counts from the end. *)
Definition transpose (axes : list Z) (a : ndarray) : M ndarray :=
  emit (EvTranspose axes) ;;;
  let n := Z.of_nat (ndim a) in
  if forallb (fun z => (- n <=? z)%Z && (z <? n)%Z) axes then
    let axes' := map (fun z => Z.to_nat (if (z <? 0)%Z then z + n else z)%Z) axes in
    if is_permutation (ndim a) axes' then ret (permute_axes axes' a)
    else raise AxisError
  else raise AxisError.

(** [f 0 + ... + f (n-1)] *)
Fixpoint sum_upto (n : nat) (f : nat -> Z) : Z :=
  match n with
  | O => 0%Z
  | S n' => (sum_upto n' f + f n')%Z
  end.

(** The sum of [f] over every index that agrees with [idx] on the kept
    axes and ranges over the whole extent on the masked ones. *)
Fixpoint sum_masked (sh : list nat) (mask : list bool) (f : list nat -> Z)
         (idx : list nat) : Z :=
  match sh, mask with
  | d :: sh', true :: mask' =>
      sum_upto d (fun k => sum_masked sh' mask' (fun r => f (k :: r)) idx)
  | _ :: sh', false :: mask' =>
      sum_masked sh' mask' (fun r => f (hd 0 idx :: r)) (tl idx)
  | _, _ => f []
  end.

Fixpoint keep_unmasked {A} (l : list A) (mask : list bool) : list A :=
  match l, mask with
  | x :: l', true :: mask' => keep_unmasked l' mask'
  | x :: l', false :: mask' => x :: keep_unmasked l' mask'
  | _, _ => []
  end.

(** [a.sum(axis=tuple(axes))]: one reduction over all the axes. *)
Definition sum (axes : list nat) (a : ndarray) : M ndarray :=
  emit (EvSum axes) ;;;
  if forallb (fun ax => ax <? ndim a) axes then
    let mask := map (fun p => existsb (Nat.eqb p) axes) (seq 0 (ndim a)) in
    ret {| dtype_of := sum_dtype (dtype_of a);
           shape := keep_unmasked (shape a) mask;
           item := sum_masked (shape a) mask (item a) |}
  else raise AxisError.

(** [cupy.tensordot(a, b, axes=0)]: the outer product. *)
Definition tensordot0 (a b : ndarray) : M ndarray :=
  emit EvTensordot ;;;
  ret {| dtype_of := promote (dtype_of a) (dtype_of b);
         shape := shape a ++ shape b;
         item := fun idx =>
                   (item a (firstn (ndim a) idx) * item b (skipn (ndim a) idx))%Z |}.

(** [numpy.result_type] on the operands: their common type;
    an error when there is none. *)
Definition result_type (ts : list dtype) : M dtype :=
  match ts with
  | [] => raise NoOperandTypeError
  | t :: ts' => ret (fold_left promote ts' t)
  end.

(** ** The view calculators

    Each calculator object holds an array and a subscript; a [view] is
    that pair once the calculator has been called. *)

Record view := {
  result : ndarray;
  subscript : list ascii
}.

Section Calculators.

Variable order : iteration.

(** *** SingleViewCalculator *)

(** The body of the inner loop (lines 39 to 42) for one [axis]. *)
Definition diag_step (first : nat) (v : view) (axis : nat) : M view :=
  r <- diagonal axis first (result v) ;;
  r' <- rollaxis_last first r ;;
  ret {| result := r';
         subscript := firstn axis (subscript v)
                      ++ skipn (axis + 1) (subscript v) |}.

(** The body of the loop over the labels (lines 32 to 42). *)
Definition collapse_label (count_dict : ascii -> nat) (v : view)
           (lbl : ascii) : M view :=
  if count_dict lbl =? 1 then ret v
  else
    let axes_to_diag := positions lbl (subscript v) in
    match axes_to_diag with
    | [] => ret v
    | first :: rest => for_each (rev rest) (diag_step first) v
    end.

Definition SingleViewCalculator_call (ioperand : ndarray)
           (subscript0 : list ascii) : M view :=
  let labels := iter_set order subscript0 in
  let count_dict := fun c => count c subscript0 in
  for_each labels (collapse_label count_dict)
           {| result := ioperand; subscript := subscript0 |}.

(** *** SummedViewCalculator *)

Fixpoint positions_where_from (base : nat) (p : ascii -> bool)
         (s : list ascii) : list nat :=
  match s with
  | [] => []
  | x :: s' =>
      if p x then base :: positions_where_from (S base) p s'
      else positions_where_from (S base) p s'
  end.

Definition SummedViewCalculator_call (ioperand : ndarray)
           (input_subscript output_subscript : list ascii) : M view :=
  let label_to_summed :=
    iter_set order (set_diff input_subscript output_subscript) in
  let axes_to_summed :=
    positions_where_from 0 (fun l => mem l label_to_summed) input_subscript in
  r <- match axes_to_summed with
       | [] => ret ioperand
       | _ :: _ =>
           s <- sum axes_to_summed ioperand ;;
           astype (dtype_of ioperand) s
       end ;;
  ret {| result := r;
         subscript := fold_left (fun s l => remove_char l s)
                                label_to_summed input_subscript |}.

(** *** TransposedViewCalculator *)

Definition same_label_set (a b : list ascii) : bool :=
  forallb (fun c => mem c b) a && forallb (fun c => mem c a) b.

Definition transpose_orders (input_subscript output_subscript : list ascii)
  : list Z :=
  map (fun l => find_char l input_subscript) output_subscript.

Definition TransposedViewCalculator_call (ioperand : ndarray)
           (input_subscript output_subscript : list ascii) : M ndarray :=
  if negb (length input_subscript =? length output_subscript)
  then raise AssertionError
  else if negb (same_label_set input_subscript output_subscript)
  then raise AssertionError
  else
    let orders := transpose_orders input_subscript output_subscript in
    if list_Z_eqb orders (sorted_Z orders) then ret ioperand
    else transpose orders ioperand.

(** *** CombinedViewCalculator *)

Definition CombinedViewCalculator_call (ioperands : list ndarray)
           (subscripts : list (list ascii)) : M view :=
  match ioperands with
  | [] => raise IndexError
  | first :: others =>
      r <- for_each others tensordot0 first ;;
      ret {| result := r; subscript := concat subscripts |}
  end.

(** ** einsum *)

Definition get_dummy_labels (label_list : list ascii) : list ascii :=
  filter (fun l => 2 <=? count l label_list) (distinct label_list).

(** An operand is a device array or a value that [cupy.asarray]
    turns into one. *)
Record operand := {
  is_ndarray : bool;
  as_array : ndarray
}.

(** The first positional argument: a string, or something else. *)
Inductive pyvalue :=
| PyStr (s : list ascii)
| PyArray (a : operand).

(** The positional arguments of a call: none at all, or the first one
    followed by the operands. *)
Inductive arguments :=
| NoArguments
| Arguments (subscripts : pyvalue) (ioperands : list operand).

(** Lines 165 to 174. *)
Definition check_alphabet (subscripts0 : list ascii) : M (list ascii) :=
  if mem "." subscripts0 then raise NotSupportedError
  else
    let subscripts := remove_char " " subscripts0 in
    let irregular_chars :=
      iter_set order (set_diff (set_diff subscripts ascii_letters) (py "->,")) in
    match irregular_chars with
    | pickup :: _ => raise (InvalidSubscriptError pickup)
    | [] => ret subscripts
    end.

(** Lines 176 to 182. *)
Definition convert_one (d : dtype) (a : operand) : M ndarray :=
  if is_ndarray a then astype d (as_array a) else asarray d (as_array a).

Definition convert_inputs (ioperands : list operand) : M (list ndarray) :=
  d <- result_type (map (fun a => dtype_of (as_array a)) ioperands) ;;
  for_each ioperands
           (fun converted a => r <- convert_one d a ;; ret (converted ++ [r]))
           [].

(** Lines 184 to 190. *)
Definition check_arrow (subscripts : list ascii) : M unit :=
  let pos := find_char "-" subscripts in
  if (pos =? Z.of_nat (length subscripts) - 1)%Z then raise MalformedArrowError
  else if negb (pos =? -1)%Z then
    match nth_error subscripts (Z.to_nat (pos + 1)) with
    | Some c => if negb (Ascii.eqb c ">") then raise MalformedArrowError
                else ret tt
    | None => raise IndexError
    end
  else ret tt.

(** Lines 192 to 214: the input side and the output subscript. *)
Definition parse_output (subscripts : list ascii)
  : M (list ascii * list ascii) :=
  let arrow_pos := find_arrow subscripts in
  if (arrow_pos =? -1)%Z then
    let input_subscripts := subscripts in
    let label_list := remove_char "," input_subscripts in
    let out_label_set := set_diff label_list (get_dummy_labels label_list) in
    ret (input_subscripts, sorted_labels (iter_set order out_label_set))
  else
    let input_subscripts := firstn (Z.to_nat arrow_pos) subscripts in
    let output_subscript := skipn (Z.to_nat (arrow_pos + 2)) subscripts in
    match iter_set order (set_diff output_subscript input_subscripts) with
    | pickup :: _ => raise (UnknownOutputLabelError pickup)
    | [] =>
        match filter (fun key => negb (count key output_subscript =? 1))
                     (iter_set order output_subscript) with
        | key :: _ => raise (RepeatedOutputLabelError key)
        | [] => ret (input_subscripts, output_subscript)
        end
    end.

(** Lines 216 to 222. *)
Definition check_counts (input_subscripts : list ascii)
           (converted_inputs : list ndarray) : M (list (list ascii)) :=
  let input_subscripts_list := split_comma input_subscripts in
  if length input_subscripts_list <? length converted_inputs
  then raise (OperandCountMismatchError SaysFewerOperands)
  else if length converted_inputs <? length input_subscripts_list
  then raise (OperandCountMismatchError SaysMoreOperands)
  else ret input_subscripts_list.

(** Lines 226 to 238: the body of the loop over the operands. *)
Definition parse_operand (input_subscripts_list : list (list ascii))
           (converted_inputs : list ndarray)
           (i_parsers : list view) (i : nat) : M (list view) :=
  match nth_error input_subscripts_list i, nth_error converted_inputs i with
  | Some sub, Some ioperand =>
      if ndim ioperand <? length sub
      then raise (RankMismatchError (SaysTooManySubscripts i))
      else if length sub <? ndim ioperand
      then raise (RankMismatchError SaysMoreDimensions)
      else
        calc <- SingleViewCalculator_call ioperand sub ;;
        ret (i_parsers ++ [calc])
  | _, _ => raise IndexError
  end.

(** Lines 240 to 256. *)
Definition evaluate (converted_inputs : list ndarray) (i_parsers : list view)
           (output_subscript : list ascii) : M ndarray :=
  calc <- (if 2 <=? length converted_inputs then
             c <- CombinedViewCalculator_call (map result i_parsers)
                                              (map subscript i_parsers) ;;
             SingleViewCalculator_call (result c) (subscript c)
           else
             match i_parsers with
             | p :: _ => ret p
             | [] => raise IndexError
             end) ;;
  calc' <- SummedViewCalculator_call (result calc) (subscript calc)
                                     output_subscript ;;
  TransposedViewCalculator_call (result calc') (subscript calc')
                                output_subscript.

(** Lines 165 to 256: the call once the first argument is a string. *)
Definition einsum_on (subscripts0 : list ascii) (ioperands : list operand)
  : M ndarray :=
  subscripts <- check_alphabet subscripts0 ;;
  converted_inputs <- convert_inputs ioperands ;;
  check_arrow subscripts ;;;
  io <- parse_output subscripts ;;
  input_subscripts_list <- check_counts (fst io) converted_inputs ;;
  i_parsers <- for_each (seq 0 (length input_subscripts_list))
                        (parse_operand input_subscripts_list converted_inputs)
                        [] ;;
  evaluate converted_inputs i_parsers (snd io).

Definition einsum (operands : arguments) : M ndarray :=
  match operands with
  | NoArguments => raise UsageError
  | Arguments (PyArray _) _ => raise SubscriptsTypeError
  | Arguments (PyStr subscripts) ioperands => einsum_on subscripts ioperands
  end.

End Calculators.

(** ** Vocabulary of the statements *)

(** The conversion of an operand to the type [d], as lines 178 to 182
    perform it: the recorded event and the converted array. *)
Definition conversion_event (d : dtype) (a : operand) : event :=
  if is_ndarray a then EvAstype d else EvAsarray d.

Definition converted (d : dtype) (a : operand) : ndarray :=
  {| dtype_of := d; shape := shape (as_array a); item := item (as_array a) |}.

(** The common element type of a non-empty operand list. *)
Definition common_type (a : operand) (others : list operand) : dtype :=
  fold_left promote (map (fun x => dtype_of (as_array x)) others)
            (dtype_of (as_array a)).



(** The events of the diagonal collapse. *)
Definition is_view_event (ev : event) : Prop :=
  match ev with
  | EvDiagonal _ _ | EvRollaxis _ => True
  | _ => False
  end.



(** Lines 184 to 256 of [einsum]: what follows the conversion of the
    operands, as [einsum_on] performs it. *)
Definition after_conversion (order : iteration) (subscripts : list ascii)
           (converted_inputs : list ndarray) : M ndarray :=
  check_arrow subscripts ;;;
  io <- parse_output order subscripts ;;
  input_subscripts_list <- check_counts (fst io) converted_inputs ;;
  i_parsers <- for_each (seq 0 (length input_subscripts_list))
                        (parse_operand order input_subscripts_list
                                       converted_inputs)
                        [] ;;
  evaluate order converted_inputs i_parsers (snd io).



(** The order of [sorted] on labels: by character code. *)
Definition code_le (a b : ascii) : Prop := nat_of_ascii a <= nat_of_ascii b.

(** The product of the entries of the arrays at the given indices, one
    index per array. *)
Fixpoint outer_product_entry (arrays : list ndarray) (idxs : list (list nat))
  : Z :=
  match arrays, idxs with
  | a :: arrays', i :: idxs' => (item a i * outer_product_entry arrays' idxs')%Z
  | _, _ => 1%Z
  end.

(** What the loop over the operands leaves for an operand: the first
    occurrences of its labels, on an array of that rank. *)
Definition collapsed (sub : list ascii) (p : view) : Prop :=
  subscript p = distinct sub /\ length (subscript p) = ndim (result p).

(** Sample inputs: the matrix of the given shape whose entry [(i, j)]
    is [i * cols + j], and a vector of the same kind. *)
Definition sample_matrix (d : dtype) (rows cols : nat) : operand :=
  {| is_ndarray := true;
     as_array := {| dtype_of := d; shape := [rows; cols];
                    item := fun idx =>
                              Z.of_nat (nth 0 idx 0 * cols + nth 1 idx 0) |} |}.

Definition sample_vector (d : dtype) (n : nat) : operand :=
  {| is_ndarray := true;
     as_array := {| dtype_of := d; shape := [n];
                    item := fun idx => Z.of_nat (nth 0 idx 0) |} |}.

(** * Properties *)

(** ** The trace monad *)

Lemma bind_ret {A B} (x : A) (f : A -> M B) : bind (ret x) f = f x.
Proof. unfold bind, ret. destruct (f x); reflexivity. Qed.

Lemma bind_raise {A B} (e : exn) (f : A -> M B) : bind (raise e) f = raise e.
Proof. reflexivity. Qed.

Lemma bind_ok {A B} (m : M A) (f : A -> M B) t x :
  m = (t, inr x) -> bind m f = (t ++ fst (f x), snd (f x)).
Proof. intros ->. unfold bind. destruct (f x); reflexivity. Qed.

Lemma bind_err {A B} (m : M A) (f : A -> M B) t e :
  m = (t, inl e) -> bind m f = (t, inl e).
Proof. intros ->. reflexivity. Qed.

Lemma bind_inv_ok {A B} (m : M A) (f : A -> M B) t y :
  bind m f = (t, inr y) ->
  exists t1 x t2, m = (t1, inr x) /\ f x = (t2, inr y) /\ t = t1 ++ t2.
Proof.
  unfold bind. destruct m as [t1 [e | x]]; [discriminate |].
  destruct (f x) as [t2 r] eqn:E. intros H. injection H as <- ->.
  exists t1, x, t2. auto.
Qed.


(** A property of the state that every successful turn of the loop
    keeps holds when the loop ends. *)
Lemma for_each_ok_inv {A S} (P : S -> Prop) (body : S -> A -> M S) :
  (forall st x t st', P st -> body st x = (t, inr st') -> P st') ->
  forall xs st t st', P st -> for_each xs body st = (t, inr st') -> P st'.
Proof.
  intros step. induction xs as [| x xs IH]; simpl; intros st t st' HP H.
  - injection H as _ <-. exact HP.
  - apply bind_inv_ok in H as (t1 & s1 & t2 & H1 & H2 & _).
    eapply IH; [eapply step; eassumption | eassumption].
Qed.

(** The loop runs to its end when every turn from a good state
    succeeds in a good state. *)
Lemma for_each_total {A S} (P : S -> Prop) (body : S -> A -> M S) (xs : list A) :
  (forall st x, P st -> In x xs -> exists t st', body st x = (t, inr st') /\ P st') ->
  forall st, P st -> exists t st', for_each xs body st = (t, inr st') /\ P st'.
Proof.
  induction xs as [| x xs IH]; simpl; intros step st HP.
  - exists [], st. auto.
  - destruct (step st x HP (or_introl eq_refl)) as (t1 & s1 & E1 & P1).
    destruct IH with (st := s1) as (t2 & s2 & E2 & P2); auto.
    exists (t1 ++ t2), s2. split; auto.
    rewrite (bind_ok _ E1), E2. reflexivity.
Qed.


(** Turns that leave the state alone and record nothing can be dropped. *)
Lemma for_each_skip {A S} (keep : A -> bool) (body : S -> A -> M S) :
  (forall st x, keep x = false -> body st x = ret st) ->
  forall xs st, for_each xs body st = for_each (filter keep xs) body st.
Proof.
  intros skip. induction xs as [| x xs IH]; simpl; intros st; auto.
  destruct (keep x) eqn:K; simpl.
  - unfold bind. destruct (body st x) as [t1 [e | s1]]; auto.
    rewrite IH. reflexivity.
  - rewrite (skip _ _ K), bind_ret. apply IH.
Qed.

(** ** Sets in iteration order *)

Lemma iter_set_nil (order : iteration) l :
  distinct l = [] -> iter_set order l = [].
Proof.
  intros E. apply Permutation_nil. symmetry.
  rewrite <- E. apply iter_set_perm.
Qed.

Lemma iter_set_singleton (order : iteration) l x :
  distinct l = [x] -> iter_set order l = [x].
Proof.
  intros E. apply Permutation_length_1_inv. symmetry.
  rewrite <- E. apply iter_set_perm.
Qed.

Lemma filter_perm {A} (f : A -> bool) (l l' : list A) :
  Permutation l l' -> Permutation (filter f l) (filter f l').
Proof.
  induction 1 as [| x l l' _ IH | x y l | l l' l'' _ IH1 _ IH2]; simpl.
  - constructor.
  - destruct (f x); auto.
  - destruct (f x), (f y); auto. constructor.
  - etransitivity; eassumption.
Qed.

Lemma iter_filter_nil (order : iteration) (f : ascii -> bool) l :
  filter f (distinct l) = [] -> filter f (iter_set order l) = [].
Proof.
  intros E. apply Permutation_nil. rewrite <- E.
  apply filter_perm. symmetry. apply iter_set_perm.
Qed.

Lemma iter_filter_singleton (order : iteration) (f : ascii -> bool) l x :
  filter f (distinct l) = [x] -> filter f (iter_set order l) = [x].
Proof.
  intros E. apply Permutation_length_1_inv. rewrite <- E.
  apply filter_perm. symmetry. apply iter_set_perm.
Qed.

Lemma mem_In c l : mem c l = true <-> In c l.
Proof.
  unfold mem. rewrite existsb_exists. split.
  - intros (x & Hx & E). apply Ascii.eqb_eq in E. now subst.
  - intros H. exists c. split; auto. apply Ascii.eqb_refl.
Qed.

Lemma distinct_In c l : In c (distinct l) <-> In c l.
Proof.
  induction l as [| x l IH]; simpl; [tauto |].
  rewrite filter_In, IH. destruct (Ascii.eqb c x) eqn:E.
  - apply Ascii.eqb_eq in E. subst. tauto.
  - apply Ascii.eqb_neq in E. simpl. intuition congruence.
Qed.

Lemma iter_set_In (order : iteration) c l : In c (iter_set order l) <-> In c l.
Proof.
  split; intros H.
  - apply distinct_In. eapply Permutation_in; [apply iter_set_perm | exact H].
  - eapply Permutation_in; [symmetry; apply iter_set_perm |].
    apply distinct_In. exact H.
Qed.

(** ** The stages of a call *)

Lemma bind_pair_ok {A B} t (x : A) (f : A -> M B) :
  bind (t, inr x) f = (t ++ fst (f x), snd (f x)).
Proof. unfold bind. destruct (f x); reflexivity. Qed.

Lemma bind_pair_err {A B} t e (f : A -> M B) :
  bind (t, inl e) f = (t, inl e).
Proof. reflexivity. Qed.

Lemma convert_loop d ops : forall acc,
  for_each ops (fun cs a => r <- convert_one d a ;; ret (cs ++ [r])) acc
  = (map (conversion_event d) ops, inr (acc ++ map (converted d) ops)).
Proof.
  induction ops as [| a ops IH]; simpl; intros acc.
  - rewrite app_nil_r. reflexivity.
  - assert (E : (r <- convert_one d a ;; ret (acc ++ [r]))
                = ([conversion_event d a], inr (acc ++ [converted d a]))).
    { unfold convert_one, conversion_event, converted, astype, asarray.
      destruct (is_ndarray a); reflexivity. }
    rewrite E, bind_pair_ok, IH. simpl. rewrite <- app_assoc. reflexivity.
Qed.

Lemma convert_inputs_spec a ops :
  convert_inputs (a :: ops)
  = (map (conversion_event (common_type a ops)) (a :: ops),
     inr (map (converted (common_type a ops)) (a :: ops))).
Proof.
  unfold convert_inputs. simpl result_type. rewrite bind_ret.
  apply (convert_loop _ (a :: ops) []).
Qed.

Lemma convert_inputs_nil : convert_inputs [] = ([], inl NoOperandTypeError).
Proof. reflexivity. Qed.

Lemma outcome_ok_ex {A} (m : M A) (P : A -> Prop) :
  match outcome m with inr r => P r | inl _ => False end ->
  exists t r, m = (t, inr r) /\ P r.
Proof.
  destruct m as [t [e | r]]; simpl; [tauto |]. intros H. exists t, r. auto.
Qed.

Lemma fold_remove_char (L s : list ascii) :
  fold_left (fun s l => remove_char l s) L s
  = filter (fun x => negb (mem x L)) s.
Proof.
  revert s. induction L as [| l L IH]; simpl; intros s.
  - induction s as [| x s IHs]; simpl; congruence.
  - rewrite IH. unfold remove_char.
    induction s as [| x s IHs]; simpl; auto.
    rewrite Ascii.eqb_sym.
    destruct (Ascii.eqb l x) eqn:E; simpl; auto.
    destruct (mem x L); simpl; congruence.
Qed.

Lemma positions_where_ext p q s : 
  (forall x, In x s -> p x = q x) ->
  forall base, positions_where_from base p s = positions_where_from base q s.
Proof.
  induction s as [| x s IH]; simpl; intros H base; auto.
  rewrite (H x (or_introl eq_refl)), IH by auto. reflexivity.
Qed.

Section Stages.

Variable order : iteration.

Lemma check_alphabet_accepts s :
  mem "." s = false ->
  set_diff (set_diff (remove_char " " s) ascii_letters) (py "->,") = [] ->
  check_alphabet order s = ret (remove_char " " s).
Proof.
  intros H1 H2. unfold check_alphabet. rewrite H1.
  rewrite iter_set_nil by (rewrite H2; reflexivity). reflexivity.
Qed.

Lemma mem_iter_set c l : mem c (iter_set order l) = mem c l.
Proof.
  apply eq_true_iff_eq. rewrite !mem_In. apply iter_set_In.
Qed.

Lemma mem_set_diff c a b : mem c (set_diff a b) = mem c a && negb (mem c b).
Proof.
  apply eq_true_iff_eq. rewrite andb_true_iff, negb_true_iff, !mem_In.
  unfold set_diff. rewrite filter_In, negb_true_iff. tauto.
Qed.

(** The summed view does not depend on the iteration order. *)
Lemma SummedViewCalculator_call_eq a input output :
  SummedViewCalculator_call order a input output
  = (r <- match positions_where_from 0 (fun l => negb (mem l output)) input with
          | [] => ret a
          | (_ :: _) as axes => s <- sum axes a ;; astype (dtype_of a) s
          end ;;
     ret {| result := r; subscript := filter (fun l => mem l output) input |}).
Proof.
  unfold SummedViewCalculator_call.
  rewrite fold_remove_char.
  assert (E1 : forall base,
    positions_where_from base
      (fun l => mem l (iter_set order (set_diff input output))) input
    = positions_where_from base (fun l => negb (mem l output)) input).
  { apply positions_where_ext. intros x Hx.
    rewrite mem_iter_set, mem_set_diff.
    apply mem_In in Hx. rewrite Hx. reflexivity. }
  rewrite E1.
  assert (E2 : filter (fun x => negb (mem x (iter_set order (set_diff input output)))) input
               = filter (fun l => mem l output) input).
  { apply filter_ext_in. intros x Hx.
    rewrite mem_iter_set, mem_set_diff.
    apply mem_In in Hx. rewrite Hx. simpl. apply negb_involutive. }
  rewrite E2.
  destruct (positions_where_from 0 (fun l => negb (mem l output)) input);
    reflexivity.
Qed.

Lemma SingleViewCalculator_call_skip a s :
  SingleViewCalculator_call order a s
  = for_each (filter (fun c => negb (count c s =? 1)) (iter_set order s))
             (collapse_label (fun c => count c s))
             {| result := a; subscript := s |}.
Proof.
  unfold SingleViewCalculator_call. apply for_each_skip.
  intros st x H. unfold collapse_label.
  apply negb_false_iff in H. rewrite H. reflexivity.
Qed.

Lemma parse_output_explicit s :
  find_arrow s <> (-1)%Z ->
  let input := firstn (Z.to_nat (find_arrow s)) s in
  let output := skipn (Z.to_nat (find_arrow s + 2)) s in
  set_diff output input = [] ->
  filter (fun key => negb (count key output =? 1)) (distinct output) = [] ->
  parse_output order s = ret (input, output).
Proof.
  intros H input output H1 H2. unfold parse_output.
  apply Z.eqb_neq in H. rewrite H. fold input output.
  rewrite iter_set_nil by (rewrite H1; reflexivity).
  rewrite iter_filter_nil by exact H2. reflexivity.
Qed.

(** The call, stage by stage, once the checks before the loop over the
    operands have passed. *)
Lemma einsum_on_stages s0 a ops s input output subs :
  check_alphabet order s0 = ret s ->
  check_arrow s = ret tt ->
  parse_output order s = ret (input, output) ->
  let convs := map (converted (common_type a ops)) (a :: ops) in
  check_counts input convs = ret subs ->
  einsum_on order s0 (a :: ops)
  = bind (map (conversion_event (common_type a ops)) (a :: ops), inr tt)
         (fun _ =>
            i_parsers <- for_each (seq 0 (length subs))
                                  (parse_operand order subs convs) [] ;;
            evaluate order convs i_parsers output).
Proof.
  intros H1 H2 H3 convs H4. unfold einsum_on.
  rewrite H1, bind_ret, convert_inputs_spec, !bind_pair_ok.
  rewrite H2, bind_ret, H3, bind_ret.
  change (fst (input, output)) with input.
  change (snd (input, output)) with output.
  fold convs. rewrite H4, bind_ret. reflexivity.
Qed.

End Stages.

(** ** SingleViewCalculator *)

Lemma positions_from_shift c s : forall base,
  positions_from (S base) c s = map S (positions_from base c s).
Proof.
  induction s as [| x s IH]; simpl; intros base; auto.
  destruct (Ascii.eqb x c); simpl; rewrite IH; reflexivity.
Qed.

Lemma count_positions c s : forall base,
  count c s = length (positions_from base c s).
Proof.
  induction s as [| x s IH]; simpl; intros base; auto.
  destruct (Ascii.eqb x c); simpl; rewrite (IH (S base)); reflexivity.
Qed.

Lemma positions_from_bounds c s : forall base p,
  In p (positions_from base c s) -> base <= p < base + length s.
Proof.
  induction s as [| x s IH]; simpl; intros base p H; [tauto |].
  destruct (Ascii.eqb x c); simpl in H.
  - destruct H as [<- | H]; [lia |]. apply IH in H. lia.
  - apply IH in H. lia.
Qed.

Lemma length_remove_at {A} (l : list A) k :
  k < length l -> length (remove_at k l) = length l - 1.
Proof.
  intros H. unfold remove_at.
  rewrite length_app, length_firstn, length_skipn. lia.
Qed.

Lemma length_insert_at {A} (x : A) (l : list A) k :
  length (insert_at k x l) = S (length l).
Proof.
  unfold insert_at. rewrite length_app. simpl.
  rewrite length_firstn, length_skipn. lia.
Qed.

Lemma remove_at_cons {A} (x : A) l k :
  remove_at (S k) (x :: l) = x :: remove_at k l.
Proof. reflexivity. Qed.

(** Dropping the character at the last position of [c] drops that
    position and leaves the other characters as they are. *)
Lemma positions_drop_last c s : forall base ps ax,
  positions_from base c s = ps ++ [ax] ->
  base <= ax < base + length s
  /\ positions_from base c (remove_at (ax - base) s) = ps
  /\ forall c', c' <> c ->
       count c' (remove_at (ax - base) s) = count c' s.
Proof.
  induction s as [| x s IH]; simpl; intros base ps ax H.
  - destruct ps; discriminate.
  - destruct (Ascii.eqb x c) eqn:E.
    + apply Ascii.eqb_eq in E. subst x.
      destruct ps as [| p ps]; simpl in H.
      * injection H as -> H. replace (ax - ax) with 0 by lia.
        unfold remove_at; simpl. split; [lia | split].
        -- rewrite positions_from_shift in H.
           destruct (positions_from ax c s); [reflexivity | discriminate].
        -- intros c' Hc. apply Ascii.eqb_neq in Hc.
           rewrite Ascii.eqb_sym in Hc. rewrite Hc. reflexivity.
      * injection H as -> H.
        destruct (IH _ _ _ H) as (B & P & C).
        replace (ax - p) with (S (ax - S p)) by lia.
        rewrite remove_at_cons. simpl. rewrite Ascii.eqb_refl.
        split; [lia | split].
        -- rewrite P. reflexivity.
        -- intros c' Hc. rewrite (C c' Hc). reflexivity.
    + destruct (IH _ _ _ H) as (B & P & C).
      replace (ax - base) with (S (ax - S base)) by lia.
      rewrite remove_at_cons. simpl. rewrite E.
      split; [lia | split]; auto.
Qed.

Lemma NoDup_count (l : list ascii) :
  (forall c, count c l <= 1) -> NoDup l.
Proof.
  induction l as [| x l IH]; intros H; constructor.
  - intros Hin. specialize (H x). simpl in H. rewrite Ascii.eqb_refl in H.
    assert (1 <= count x l); [| lia].
    clear -Hin. induction l as [| y l IHl]; simpl in *; [tauto |].
    destruct Hin as [-> | Hin]; [rewrite Ascii.eqb_refl; lia |].
    specialize (IHl Hin). lia.
  - apply IH. intros c. specialize (H c). simpl in H. lia.
Qed.

Lemma count_In c l : In c l <-> 1 <= count c l.
Proof.
  induction l as [| x l IH]; simpl; [split; [tauto | lia] |].
  destruct (Ascii.eqb x c) eqn:E.
  - apply Ascii.eqb_eq in E. split; [lia | auto].
  - apply Ascii.eqb_neq in E. rewrite IH. simpl. intuition congruence.
Qed.

Lemma ndim_permute_axes axes a : ndim (permute_axes axes a) = length axes.
Proof. unfold ndim. simpl. apply length_map. Qed.

(** One turn of the inner loop: the axis is dropped from the array and
    from the subscript. *)
Lemma diag_step_spec first v axis :
  length (subscript v) = ndim (result v) ->
  first < axis < length (subscript v) ->
  exists v',
    diag_step first v axis = ([EvDiagonal axis first; EvRollaxis first], inr v')
    /\ subscript v' = remove_at axis (subscript v)
    /\ length (subscript v') = ndim (result v')
    /\ dtype_of (result v') = dtype_of (result v).
Proof.
  intros L B. unfold diag_step, diagonal.
  assert (C1 : (axis <? ndim (result v)) && (first <? ndim (result v))
               && negb (axis =? first) = true).
  { rewrite !andb_true_iff, negb_true_iff, !Nat.ltb_lt, Nat.eqb_neq. lia. }
  rewrite C1. clear C1.
  set (r := {| dtype_of := dtype_of (result v);
               shape := remove_at (Nat.min axis first)
                          (remove_at (Nat.max axis first) (shape (result v)))
                        ++ [Nat.min (nth axis (shape (result v)) 0)
                                    (nth first (shape (result v)) 0)];
               item := _ |}).
  assert (N : ndim r = ndim (result v) - 1).
  { unfold ndim, r. simpl. unfold ndim in L.
    rewrite length_app, !length_remove_at; simpl;
      rewrite ?length_remove_at; lia. }
  unfold rollaxis_last.
  assert (C2 : (1 <=? ndim r) && (first <=? ndim r) = true).
  { rewrite andb_true_iff, !Nat.leb_le. lia. }
  assert (S1 : length (remove_at axis (subscript v)) = ndim r).
  { rewrite length_remove_at by lia. lia. }
  assert (S2 : firstn axis (subscript v) ++ skipn (axis + 1) (subscript v)
               = remove_at axis (subscript v)).
  { unfold remove_at. rewrite Nat.add_1_r. reflexivity. }
  cbn [emit bind ret app]. rewrite C2, S2.
  destruct (ndim r - 1 <? first); destruct (ndim r - 1 =? _);
    cbn [emit bind ret app]; eexists; (split; [reflexivity |]);
    simpl; rewrite ?ndim_permute_axes; repeat split; auto.
  all: rewrite S1, length_insert_at, length_remove_at, length_seq
      by (rewrite length_seq; lia); lia.
Qed.

Lemma positions_from_head c s : forall base p q,
  positions_from base c s = p :: q -> forall x, In x q -> p < x.
Proof.
  induction s as [| y s IH]; simpl; intros base p q H x Hx; [discriminate |].
  destruct (Ascii.eqb y c).
  - injection H as <- <-. apply positions_from_bounds in Hx. lia.
  - eapply IH; eassumption.
Qed.

(** The inner loop (lines 38 to 42): every occurrence of the label but
    the first is dropped. *)
Lemma inner_loop_spec lbl first : forall rest v,
  positions lbl (subscript v) = first :: rest ->
  length (subscript v) = ndim (result v) ->
  exists t v',
    for_each (rev rest) (diag_step first) v = (t, inr v')
    /\ positions lbl (subscript v') = [first]
    /\ length (subscript v') = ndim (result v')
    /\ (forall c, c <> lbl -> count c (subscript v') = count c (subscript v))
    /\ dtype_of (result v') = dtype_of (result v)
    /\ Forall is_view_event t.
Proof.
  induction rest as [| ax rest IH] using rev_ind; intros v P L.
  - exists [], v. simpl. repeat split; auto.
  - rewrite rev_app_distr. simpl.
    assert (F : first < ax).
    { apply (positions_from_head _ _ _ P). apply in_or_app. simpl. auto. }
    unfold positions in P.
    change (first :: rest ++ [ax]) with ((first :: rest) ++ [ax]) in P.
    destruct (positions_drop_last _ _ _ _ _ P) as (B & P' & C).
    rewrite Nat.sub_0_r in P', C.
    destruct (@diag_step_spec first v ax L) as (v1 & E1 & S1 & L1 & D1); [lia |].
    rewrite <- S1 in P', C.
    destruct (IH v1 P' L1) as (t2 & v2 & E2 & P2 & L2 & C2 & D2 & T2).
    exists ([EvDiagonal ax first; EvRollaxis first] ++ t2), v2.
    rewrite (bind_ok _ E1), E2. simpl.
    repeat split; auto.
    + intros c Hc. rewrite C2, C; auto.
    + congruence.
    + repeat (constructor; simpl; auto).
Qed.

Lemma collapse_label_spec (cd : ascii -> nat) v lbl :
  length (subscript v) = ndim (result v) ->
  exists t v',
    collapse_label cd v lbl = (t, inr v')
    /\ length (subscript v') = ndim (result v')
    /\ (forall c, count c (subscript v') <= count c (subscript v))
    /\ (cd lbl <> 1 -> count lbl (subscript v') <= 1)
    /\ dtype_of (result v') = dtype_of (result v)
    /\ Forall is_view_event t.
Proof.
  intros L. unfold collapse_label.
  destruct (cd lbl =? 1) eqn:E.
  - apply Nat.eqb_eq in E. exists [], v. repeat split; auto. tauto.
  - destruct (positions lbl (subscript v)) as [| first rest] eqn:P.
    + exists [], v. repeat split; auto. intros _.
      rewrite (count_positions _ _ 0). fold (positions lbl (subscript v)).
      rewrite P. simpl. lia.
    + destruct (@inner_loop_spec lbl first rest v P L) as (t & v' & E' & P' & L' & C' & D' & T').
      exists t, v'. repeat split; auto.
      * intros c. destruct (ascii_dec c lbl) as [-> | N].
        -- rewrite (count_positions lbl (subscript v') 0).
           rewrite (count_positions lbl (subscript v) 0).
           fold (positions lbl (subscript v')). fold (positions lbl (subscript v)).
           rewrite P', P. simpl. lia.
        -- rewrite C'; auto.
      * intros _. rewrite (count_positions lbl (subscript v') 0).
        fold (positions lbl (subscript v')). rewrite P'. simpl. lia.
Qed.

Lemma collapse_loop_spec (cd : ascii -> nat) : forall labels v,
  length (subscript v) = ndim (result v) ->
  exists t v',
    for_each labels (collapse_label cd) v = (t, inr v')
    /\ length (subscript v') = ndim (result v')
    /\ (forall c, count c (subscript v') <= count c (subscript v))
    /\ (forall c, In c labels -> cd c <> 1 -> count c (subscript v') <= 1)
    /\ dtype_of (result v') = dtype_of (result v)
    /\ Forall is_view_event t.
Proof.
  induction labels as [| x labels IH]; intros v L.
  - exists [], v. simpl. repeat split; auto. tauto.
  - destruct (@collapse_label_spec cd v x L) as (t1 & v1 & E1 & L1 & C1 & U1 & D1 & T1).
    destruct (IH v1 L1) as (t2 & v2 & E2 & L2 & C2 & U2 & D2 & T2).
    exists (t1 ++ t2), v2. simpl. rewrite (bind_ok _ E1), E2. simpl.
    repeat split; auto.
    + intros c. specialize (C1 c). specialize (C2 c). lia.
    + intros c [<- | Hc] N; [| auto].
      specialize (U1 N). specialize (C2 x). lia.
    + congruence.
    + apply Forall_app; auto.
Qed.

(** The single view of an array whose rank is the length of its
    subscript: the call succeeds, the labels of the result are pairwise
    distinct and its rank is the length of its subscript; the element type
    is kept and only diagonals and axis moves are recorded. *)
Lemma SingleViewCalculator_call_spec (order : iteration) a s :
  length s = ndim a ->
  exists t v,
    SingleViewCalculator_call order a s = (t, inr v)
    /\ NoDup (subscript v)
    /\ length (subscript v) = ndim (result v)
    /\ (forall c, In c (subscript v) -> In c s)
    /\ dtype_of (result v) = dtype_of a
    /\ Forall is_view_event t.
Proof.
  intros L. unfold SingleViewCalculator_call.
  destruct (@collapse_loop_spec (fun c => count c s) (iter_set order s)
              {| result := a; subscript := s |} L)
    as (t & v & E & L' & C & U & D & T).
  simpl in C, D. exists t, v. repeat split; auto.
  - apply NoDup_count. intros c. specialize (C c).
    destruct (Nat.eq_dec (count c s) 1) as [One | NotOne]; [lia |].
    destruct (Nat.eq_dec (count c s) 0) as [Zero | NotZero]; [lia |].
    apply U; [| exact NotOne].
    apply iter_set_In, count_In. lia.
  - intros c Hc. apply count_In. apply count_In in Hc. specialize (C c). lia.
Qed.

(** C8: for every array and subscript with [len(subscript) == rank(array)],
    SingleViewCalculator runs to its end, whatever the iteration order of
    its label set; every label of the resulting subscript is unique, and
    the length of the resulting subscript is the rank of the resulting
    array. *)
Theorem SingleViewCalculator_unique_labels (order : iteration) (a : ndarray)
        (s : list ascii) :
  length s = ndim a ->
  exists t v,
    SingleViewCalculator_call order a s = (t, inr v)
    /\ NoDup (subscript v)
    /\ length (subscript v) = ndim (result v).
Proof.
  intros L.
  destruct (@SingleViewCalculator_call_spec order a s L)
    as (t & v & E & N & L' & _).
  exists t, v. auto.
Qed.

Lemma SingleViewCalculator_unique_labels_witness :
  exists t v,
    SingleViewCalculator_call last_first_order
      {| dtype_of := int8; shape := [2; 3; 2; 3; 2];
         item := fun idx => Z.of_nat (list_sum idx) |} (py "ijiji") = (t, inr v)
    /\ NoDup (subscript v)
    /\ length (subscript v) = ndim (result v).
Proof.
  apply (@SingleViewCalculator_unique_labels last_first_order
           {| dtype_of := int8; shape := [2; 3; 2; 3; 2];
              item := fun idx => Z.of_nat (list_sum idx) |} (py "ijiji")).
  reflexivity.
Defined.

(** ** The laws of section 8 *)

(** C2: for every square matrix [a] of shape [(n, n)], [einsum('ii->i', a)]
    returns the vector of length [n] whose [k]-th element is [a[k, k]],
    whatever the iteration order of the label set. *)
Theorem einsum_diagonal_law (order : iteration) (a : operand) (n : nat) :
  shape (as_array a) = [n; n] ->
  exists t r,
    einsum order (Arguments (PyStr (py "ii->i")) [a]) = (t, inr r)
    /\ shape r = [n]
    /\ forall k, item r [k] = item (as_array a) [k; k].
Proof.
  destruct a as [nd [dt sh f]]; simpl. intros ->.
  apply outcome_ok_ex. unfold einsum.
  erewrite einsum_on_stages;
    [ | apply check_alphabet_accepts; reflexivity | reflexivity
      | apply parse_output_explicit; (reflexivity || discriminate)
      | reflexivity ].
  rewrite bind_pair_ok. unfold outcome. simpl snd.
  unfold parse_operand, evaluate.
  cbn -[SingleViewCalculator_call SummedViewCalculator_call
        TransposedViewCalculator_call].
  rewrite SingleViewCalculator_call_skip.
  rewrite (iter_filter_singleton _ _ _ (x:="i"%char)) by reflexivity.
  cbn -[SummedViewCalculator_call TransposedViewCalculator_call].
  rewrite SummedViewCalculator_call_eq.
  cbn. rewrite Nat.min_id. split; reflexivity.
Qed.

Lemma einsum_diagonal_law_witness :
  exists t r,
    einsum first_occurrence_order
           (Arguments (PyStr (py "ii->i")) [sample_matrix int32 3 3])
    = (t, inr r)
    /\ shape r = [3]
    /\ forall k, item r [k] = item (as_array (sample_matrix int32 3 3)) [k; k].
Proof.
  apply (@einsum_diagonal_law first_occurrence_order (sample_matrix int32 3 3) 3).
  reflexivity.
Defined.



(** ** The operand count *)

(** C6, on the code: with two subscripts and one operand the check of
    line 220 fires and raises the message of line 221, "more operands
    provided"; with one subscript and two operands the check of line 217
    raises "fewer operands provided".  The two messages are exchanged. *)
Theorem einsum_operand_count_messages (order : iteration) (a b : operand) :
  outcome (einsum order (Arguments (PyStr (py "ij,jk")) [a]))
  = inl (OperandCountMismatchError SaysMoreOperands)
  /\ outcome (einsum order (Arguments (PyStr (py "ij")) [a; b]))
     = inl (OperandCountMismatchError SaysFewerOperands).
Proof.
  split; unfold einsum, einsum_on;
    (rewrite check_alphabet_accepts by reflexivity);
    rewrite bind_ret, convert_inputs_spec, bind_pair_ok; reflexivity.
Qed.

(** C10: a call with a subscripts string that passes the ellipsis and
    alphabet checks and with no operand array fails in the resolution of
    the common element type, with nothing recorded; the error is not the
    operand-count error. *)
Theorem einsum_without_operands (order : iteration) (s s' : list ascii) :
  check_alphabet order s = ret s' ->
  einsum order (Arguments (PyStr s) []) = ([], inl NoOperandTypeError)
  /\ forall m, outcome (einsum order (Arguments (PyStr s) []))
               <> inl (OperandCountMismatchError m).
Proof.
  intros H.
  assert (E : einsum order (Arguments (PyStr s) []) = ([], inl NoOperandTypeError)).
  { unfold einsum, einsum_on. rewrite H, bind_ret, convert_inputs_nil.
    reflexivity. }
  split; [exact E |]. intros m. rewrite E. discriminate.
Qed.

Lemma einsum_without_operands_witness :
  check_alphabet first_occurrence_order (py "ij") = ret (py "ij")
  /\ einsum first_occurrence_order (Arguments (PyStr (py "ij")) [])
     = ([], inl NoOperandTypeError)
  /\ forall m, outcome (einsum first_occurrence_order (Arguments (PyStr (py "ij")) []))
               <> inl (OperandCountMismatchError m).
Proof.
  split; [reflexivity |].
  apply (@einsum_without_operands first_occurrence_order (py "ij") (py "ij")).
  reflexivity.
Defined.

(** ** TransposedViewCalculator *)

Lemma list_Z_eqb_eq a : forall b, list_Z_eqb a b = true <-> a = b.
Proof.
  induction a as [| x a IH]; intros [| y b]; simpl; split; intros H;
    try reflexivity; try discriminate.
  - apply andb_true_iff in H as [H1 H2]. apply Z.eqb_eq in H1.
    apply IH in H2. congruence.
  - injection H as -> ->. rewrite Z.eqb_refl. apply IH. reflexivity.
Qed.

Lemma insert_Z_sorted z l : Sorted Z.le l -> Sorted Z.le (insert_Z z l).
Proof.
  induction 1 as [| x l S IH H]; simpl.
  - repeat constructor.
  - destruct (z <=? x)%Z eqn:E.
    + apply Z.leb_le in E. repeat constructor; auto.
    + apply Z.leb_gt in E. constructor; auto.
      destruct H as [| y l' Hy]; simpl.
      * constructor. lia.
      * destruct (z <=? y)%Z; constructor; auto. lia.
Qed.

Lemma sorted_Z_sorted l : Sorted Z.le (sorted_Z l).
Proof.
  induction l as [| x l IH]; simpl; [constructor | now apply insert_Z_sorted].
Qed.

Lemma sorted_Z_id l : Sorted Z.le l -> sorted_Z l = l.
Proof.
  induction 1 as [| x l S IH H]; simpl; auto.
  rewrite IH. destruct H as [| y l' Hy]; simpl; auto.
  apply Z.leb_le in Hy. rewrite Hy. reflexivity.
Qed.

(** The test of line 98 holds exactly when the position list ascends. *)
Lemma ascending_test l :
  list_Z_eqb l (sorted_Z l) = true <-> Sorted Z.le l.
Proof.
  rewrite list_Z_eqb_eq. split; intros H.
  - rewrite H. apply sorted_Z_sorted.
  - symmetry. now apply sorted_Z_id.
Qed.

Lemma find_char_In c s : In c s -> (0 <= find_char c s < Z.of_nat (length s))%Z.
Proof.
  induction s as [| x s IH]; simpl; [tauto |].
  destruct (Ascii.eqb x c) eqn:E; [lia |].
  apply Ascii.eqb_neq in E. intros [H | H]; [congruence |].
  specialize (IH H). destruct (find_char c s =? -1)%Z eqn:F; [| lia].
  apply Z.eqb_eq in F. lia.
Qed.

Lemma find_char_cons_other x c s :
  x <> c -> In c s -> find_char c (x :: s) = (find_char c s + 1)%Z.
Proof.
  intros N H. simpl. apply Ascii.eqb_neq in N. rewrite N.
  apply find_char_In in H.
  destruct (find_char c s =? -1)%Z eqn:F; [| reflexivity].
  apply Z.eqb_eq in F. lia.
Qed.

(** In a subscript without repeated labels every label is found where
    it stands. *)
Lemma transpose_orders_same s :
  NoDup s -> transpose_orders s s = map Z.of_nat (seq 0 (length s)).
Proof.
  unfold transpose_orders.
  induction s as [| x s IH]; intros N; [reflexivity |].
  inversion N as [| ? ? Hx Ns]; subst.
  cbn [map length seq]. f_equal.
  - simpl. rewrite Ascii.eqb_refl. reflexivity.
  - rewrite <- seq_shift, map_map.
    transitivity (map (fun l => (find_char l s + 1)%Z) s).
    + apply map_ext_in. intros c Hc. apply find_char_cons_other; auto.
      intros ->. contradiction.
    + rewrite <- (map_map (fun l => find_char l s) (fun z => (z + 1)%Z)).
      rewrite IH by assumption. rewrite map_map.
      apply map_ext. intros n. lia.
Qed.

Lemma Sorted_of_nat_seq n : forall base,
  Sorted Z.le (map Z.of_nat (seq base n)).
Proof.
  induction n as [| n IH]; intros base; simpl; constructor; auto.
  destruct n; simpl; constructor. lia.
Qed.

Lemma same_label_set_refl s : same_label_set s s = true.
Proof.
  unfold same_label_set.
  assert (H : forallb (fun c => mem c s) s = true).
  { apply forallb_forall. intros c Hc. now apply mem_In. }
  rewrite H. reflexivity.
Qed.



(** ** Element types through the pipeline *)


Ltac bind_ok_in H t1 x t2 H1 :=
  let E := fresh "Etrace" in
  apply bind_inv_ok in H as (t1 & x & t2 & H1 & H & E).










(** ** The order of validation and array operations *)



Lemma parse_output_trace order s : trace (parse_output order s) = [].
Proof.
  unfold parse_output. destruct (_ =? _)%Z; [reflexivity |].
  destruct (iter_set order _); [| reflexivity].
  destruct (filter _ _); reflexivity.
Qed.


Lemma pure_eq {A} (m : M A) t r : trace m = [] -> m = (t, r) -> t = [].
Proof. intros H ->. exact H. Qed.











Lemma einsum_on_unfold order s0 ops :
  einsum_on order s0 ops
  = (subscripts <- check_alphabet order s0 ;;
     converted_inputs <- convert_inputs ops ;;
     after_conversion order subscripts converted_inputs).
Proof. reflexivity. Qed.








(** ** The element type of the result *)





(** ** The arrow *)



Lemma find_arrow_cons2 x y s :
  find_arrow (x :: y :: s)
  = if Ascii.eqb x "-" && Ascii.eqb y ">" then 0%Z
    else if (find_arrow (y :: s) =? -1)%Z then (-1)%Z
         else (find_arrow (y :: s) + 1)%Z.
Proof. reflexivity. Qed.




Section Arrow.

Variable order : iteration.



End Arrow.




(** ** The implicit output and single operands *)

Lemma insert_label_comm x y l :
  insert_label x (insert_label y l) = insert_label y (insert_label x l).
Proof.
  destruct (ascii_dec x y) as [-> | N]; [reflexivity |].
  assert (C : nat_of_ascii x <> nat_of_ascii y).
  { intros E. apply N. rewrite <- (ascii_nat_embedding x), <- (ascii_nat_embedding y).
    congruence. }
  induction l as [| z l IH]; simpl.
  - destruct (nat_of_ascii x <=? nat_of_ascii y) eqn:A;
      destruct (nat_of_ascii y <=? nat_of_ascii x) eqn:B; try reflexivity.
    + apply Nat.leb_le in A, B. lia.
    + apply Nat.leb_gt in A, B. lia.
  - destruct (nat_of_ascii y <=? nat_of_ascii z) eqn:Yz;
      destruct (nat_of_ascii x <=? nat_of_ascii z) eqn:Xz; simpl;
      rewrite ?Yz, ?Xz;
      destruct (nat_of_ascii x <=? nat_of_ascii y) eqn:A;
      destruct (nat_of_ascii y <=? nat_of_ascii x) eqn:B;
      try reflexivity;
      try (rewrite IH; reflexivity);
      repeat match goal with
             | H : (_ <=? _) = true |- _ => apply Nat.leb_le in H
             | H : (_ <=? _) = false |- _ => apply Nat.leb_gt in H
             end; lia.
Qed.

(** Sorting forgets the order in which a set was listed. *)
Lemma sorted_labels_perm l l' :
  Permutation l l' -> sorted_labels l = sorted_labels l'.
Proof.
  induction 1 as [| x l l' _ IH | x y l | l l' l'' _ IH1 _ IH2]; simpl.
  - reflexivity.
  - rewrite IH. reflexivity.
  - apply insert_label_comm.
  - congruence.
Qed.

Lemma insert_label_perm x l : Permutation (x :: l) (insert_label x l).
Proof.
  induction l as [| y l IH]; simpl; [reflexivity |].
  destruct (_ <=? _); [reflexivity |].
  rewrite perm_swap. now apply perm_skip.
Qed.

Lemma sorted_labels_permutation l : Permutation l (sorted_labels l).
Proof.
  induction l as [| x l IH]; simpl; [constructor |].
  rewrite <- insert_label_perm. now apply perm_skip.
Qed.

Lemma insert_label_sorted x l :
  Sorted code_le l -> Sorted code_le (insert_label x l).
Proof.
  induction 1 as [| y l S IH H]; simpl.
  - repeat constructor.
  - destruct (nat_of_ascii x <=? nat_of_ascii y) eqn:E.
    + apply Nat.leb_le in E. repeat constructor; auto.
    + apply Nat.leb_gt in E. constructor; auto.
      destruct H as [| z l' Hz]; simpl.
      * constructor. unfold code_le. lia.
      * destruct (nat_of_ascii x <=? nat_of_ascii z); constructor; auto.
        unfold code_le. lia.
Qed.

Lemma sorted_labels_sorted l : Sorted code_le (sorted_labels l).
Proof.
  induction l as [| x l IH]; simpl; [constructor | now apply insert_label_sorted].
Qed.

Lemma sorted_labels_id l : Sorted code_le l -> sorted_labels l = l.
Proof.
  induction 1 as [| x l S IH H]; simpl; auto.
  rewrite IH. destruct H as [| y l' Hy]; simpl; auto.
  apply Nat.leb_le in Hy. rewrite Hy. reflexivity.
Qed.

Lemma distinct_NoDup l : NoDup l -> distinct l = l.
Proof.
  induction 1 as [| x l Hx N IH]; simpl; [reflexivity |].
  rewrite IH. f_equal. apply forallb_filter_id. apply forallb_forall.
  intros y Hy. apply negb_true_iff, Ascii.eqb_neq. intros ->. contradiction.
Qed.

Lemma NoDup_count_1 l c : NoDup l -> In c l -> count c l = 1.
Proof.
  induction 1 as [| x l Hx N IH]; simpl; [tauto |].
  intros [-> | H].
  - rewrite Ascii.eqb_refl.
    assert (count c l = 0); [| lia].
    destruct (count c l) eqn:K; [reflexivity |].
    exfalso. apply Hx, count_In. lia.
  - destruct (Ascii.eqb x c) eqn:E.
    + apply Ascii.eqb_eq in E. subst. contradiction.
    + now apply IH.
Qed.

Lemma NoDup_filter_count_1 L :
  NoDup (filter (fun c => count c L =? 1) L).
Proof.
  apply NoDup_count. intros c.
  assert (G : forall l, count c (filter (fun c => count c L =? 1) l) <= count c l).
  { induction l as [| x l IH]; simpl; [lia |].
    destruct (count x L =? 1); simpl; lia. }
  destruct (count c L =? 1) eqn:E.
  - apply Nat.eqb_eq in E. specialize (G L). lia.
  - assert (Z0 : ~ In c (filter (fun c => count c L =? 1) L)).
    { intros H. apply filter_In in H as [_ H]. congruence. }
    destruct (count c (filter _ L)) eqn:K; [lia |].
    exfalso. apply Z0, count_In. lia.
Qed.

Lemma find_char_none c s : ~ In c s -> find_char c s = (-1)%Z.
Proof.
  induction s as [| x s IH]; simpl; intros H; [reflexivity |].
  destruct (Ascii.eqb x c) eqn:E.
  - apply Ascii.eqb_eq in E. tauto.
  - rewrite IH by tauto. reflexivity.
Qed.

Lemma find_arrow_none s : ~ In "-"%char s -> find_arrow s = (-1)%Z.
Proof.
  induction s as [| x s IH]; intros H; [reflexivity |].
  destruct s as [| y s]; [reflexivity |].
  rewrite find_arrow_cons2.
  assert (E : Ascii.eqb x "-" = false).
  { apply Ascii.eqb_neq. intros ->. apply H. now left. }
  rewrite E, IH; [reflexivity |]. intros K. apply H. now right.
Qed.

Lemma remove_char_id c s : ~ In c s -> remove_char c s = s.
Proof.
  intros H. unfold remove_char. apply forallb_filter_id, forallb_forall.
  intros x Hx. apply negb_true_iff, Ascii.eqb_neq. intros ->. contradiction.
Qed.

Lemma split_comma_none s : ~ In ","%char s -> split_comma s = [s].
Proof.
  induction s as [| x s IH]; simpl; intros H; [reflexivity |].
  assert (E : Ascii.eqb x "," = false).
  { apply Ascii.eqb_neq. intros ->. apply H. now left. }
  rewrite E, IH by tauto. reflexivity.
Qed.

Lemma find_char_nth s : forall p c,
  NoDup s -> nth_error s p = Some c -> find_char c s = Z.of_nat p.
Proof.
  induction s as [| x s IH]; intros p c N H; [destruct p; discriminate |].
  inversion N as [| ? ? Hx Ns]; subst.
  destruct p as [| p]; simpl in H.
  - injection H as ->. simpl. rewrite Ascii.eqb_refl. reflexivity.
  - rewrite find_char_cons_other.
    + rewrite (IH p c Ns H). lia.
    + intros ->. apply Hx. eapply nth_error_In; eassumption.
    + eapply nth_error_In; eassumption.
Qed.

Section Implicit.

Variable order : iteration.

(** Without an arrow the output subscript is the sorted list of the
    labels that occur exactly once on the input side, whatever the
    iteration order. *)
Lemma parse_output_implicit s :
  find_arrow s = (-1)%Z ->
  let label_list := remove_char "," s in
  parse_output order s
  = ret (s, sorted_labels
              (filter (fun c => count c label_list =? 1) label_list)).
Proof.
  intros E L. unfold parse_output. rewrite E, Z.eqb_refl. fold L.
  unfold ret. do 3 f_equal. apply sorted_labels_perm.
  assert (X : set_diff L (get_dummy_labels L)
              = filter (fun c => count c L =? 1) L).
  { unfold set_diff. apply filter_ext_in. intros c Hc.
    apply eq_true_iff_eq. rewrite negb_true_iff, Nat.eqb_eq.
    rewrite <- not_true_iff_false, mem_In.
    unfold get_dummy_labels. rewrite filter_In, distinct_In, Nat.leb_le.
    apply count_In in Hc. split; [intros H | intros H [_ K]]; [| lia].
    destruct (Nat.eq_dec (count c L) 1); [assumption |].
    exfalso. apply H. split; [now apply count_In | lia]. }
  rewrite X. rewrite <- (distinct_NoDup (NoDup_filter_count_1 L)) at 2.
  apply iter_set_perm.
Qed.

End Implicit.

(** C3, on the code: for the empty subscript [find] returns [-1], which
    is also [len(subscripts) - 1]; the test of line 185 fires although the
    string has no ['-'].  A call with the empty subscript, or with blanks
    only, and one operand of rank 0 fails with the malformed-arrow error. *)
Theorem einsum_empty_subscript (order : iteration) (a : operand) :
  outcome (einsum order (Arguments (PyStr (py "")) [a]))
  = inl MalformedArrowError
  /\ outcome (einsum order (Arguments (PyStr (py "  ")) [a]))
     = inl MalformedArrowError.
Proof.
  split; unfold einsum, einsum_on;
    (rewrite check_alphabet_accepts by reflexivity);
    rewrite bind_ret, convert_inputs_spec, bind_pair_ok; reflexivity.
Qed.

Lemma filter_none {A} (f : A -> bool) (l : list A) :
  (forall x, In x l -> f x = false) -> filter f l = [].
Proof.
  induction l as [| x l IH]; intros H; [reflexivity |].
  cbn [filter]. rewrite (H x (or_introl eq_refl)).
  apply IH. intros y Hy. apply H. now right.
Qed.

Lemma positions_where_none p s :
  (forall x, In x s -> p x = false) ->
  forall base, positions_where_from base p s = [].
Proof.
  induction s as [| x s IH]; intros H base; [reflexivity |].
  cbn [positions_where_from]. rewrite (H x (or_introl eq_refl)).
  apply IH. intros y Hy. apply H. now right.
Qed.

Section SingleOperand.

Variable order : iteration.
Variable sub : list ascii.
Variable a : operand.

Hypothesis sub_letters : Forall (fun c => In c ascii_letters) sub.
Hypothesis sub_unique : NoDup sub.
Hypothesis sub_not_empty : sub <> [].
Hypothesis sub_rank : length sub = ndim (as_array a).

Let d := dtype_of (as_array a).
Let out := sorted_labels sub.
Let orders := transpose_orders sub out.

Lemma letters_exclude c : mem c ascii_letters = false -> ~ In c sub.
Proof.
  intros M H. rewrite Forall_forall in sub_letters.
  apply sub_letters, mem_In in H. congruence.
Qed.

Lemma letters_pass_alphabet : check_alphabet order sub = ret sub.
Proof.
  assert (E : remove_char " " sub = sub)
    by (apply remove_char_id, letters_exclude; reflexivity).
  rewrite <- E at 2. apply check_alphabet_accepts.
  - apply not_true_iff_false. intros M. apply mem_In in M.
    revert M. apply letters_exclude. reflexivity.
  - rewrite E.
    assert (Z0 : set_diff sub ascii_letters = []).
    { unfold set_diff. apply filter_none. intros x Hx.
      apply negb_false_iff, mem_In.
      rewrite Forall_forall in sub_letters. now apply sub_letters. }
    rewrite Z0. reflexivity.
Qed.

Lemma letters_pass_arrow : check_arrow sub = ret tt.
Proof.
  unfold check_arrow.
  rewrite find_char_none by (apply letters_exclude; reflexivity).
  assert (E : (-1 =? Z.of_nat (length sub) - 1)%Z = false).
  { apply Z.eqb_neq.
    assert (length sub <> 0) by (rewrite length_zero_iff_nil; exact sub_not_empty).
    lia. }
  rewrite E. reflexivity.
Qed.

Lemma letters_output : parse_output order sub = ret (sub, out).
Proof.
  rewrite parse_output_implicit
    by (apply find_arrow_none, letters_exclude; reflexivity).
  rewrite remove_char_id by (apply letters_exclude; reflexivity).
  unfold ret, out. do 4 f_equal.
  apply forallb_filter_id, forallb_forall. intros c Hc.
  apply Nat.eqb_eq. now apply NoDup_count_1.
Qed.

Lemma out_In c : In c out <-> In c sub.
Proof.
  unfold out. split; apply Permutation_in.
  - symmetry. apply sorted_labels_permutation.
  - apply sorted_labels_permutation.
Qed.

Lemma out_length : length out = length sub.
Proof. unfold out. symmetry. apply Permutation_length, sorted_labels_permutation. Qed.

(** The position list is a permutation of the axes. *)
Lemma orders_valid :
  forallb (fun z => (- Z.of_nat (length sub) <=? z)%Z
                    && (z <? Z.of_nat (length sub))%Z) orders = true
  /\ map (fun z => Z.to_nat (if (z <? 0)%Z then z + Z.of_nat (length sub) else z)%Z)
         orders
     = map Z.to_nat orders
  /\ is_permutation (length sub) (map Z.to_nat orders) = true.
Proof.
  unfold orders, transpose_orders. split; [| split].
  - apply forallb_forall. intros z Hz.
    apply in_map_iff in Hz as (c & <- & Hc). apply out_In, find_char_In in Hc.
    apply andb_true_iff. split; [apply Z.leb_le | apply Z.ltb_lt]; lia.
  - rewrite !map_map. apply map_ext_in. intros c Hc.
    apply out_In, find_char_In in Hc.
    destruct (find_char c sub <? 0)%Z eqn:E; [apply Z.ltb_lt in E; lia | reflexivity].
  - unfold is_permutation. rewrite !length_map, out_length, Nat.eqb_refl.
    simpl. apply forallb_forall. intros p Hp. apply in_seq in Hp.
    apply existsb_exists. exists p. split; [| apply Nat.eqb_refl].
    destruct (nth_error sub p) as [c |] eqn:K;
      [| apply nth_error_None in K; lia].
    rewrite map_map. apply in_map_iff. exists c. split.
    + rewrite (@find_char_nth sub p c sub_unique K). lia.
    + apply out_In. eapply nth_error_In; eassumption.
Qed.

(** One operand, a subscript of pairwise distinct letters and no
    arrow: the call returns the converted operand when the labels are
    already in ascending order of their positions, and otherwise its
    transposition by the positions of the sorted labels. *)
Lemma einsum_single_operand :
  einsum order (Arguments (PyStr sub) [a])
  = if list_Z_eqb orders (sorted_Z orders)
    then ([conversion_event d a], inr (converted d a))
    else ([conversion_event d a; EvTranspose orders],
          inr (permute_axes (map Z.to_nat orders) (converted d a))).
Proof.
  unfold einsum.
  assert (C : check_counts sub (map (converted (common_type a [])) [a]) = ret [sub]).
  { unfold check_counts.
    rewrite split_comma_none by (apply letters_exclude; reflexivity).
    reflexivity. }
  rewrite (@einsum_on_stages order sub a [] sub sub out [sub]
             letters_pass_alphabet letters_pass_arrow letters_output C).
  rewrite bind_pair_ok.
  change (common_type a []) with d.
  cbn [length seq for_each map].
  assert (P : parse_operand order [sub] [converted d a] [] 0
              = ret [{| result := converted d a; subscript := sub |}]).
  { unfold parse_operand. cbn [nth_error].
    assert (R : ndim (converted d a) = length sub) by (symmetry; exact sub_rank).
    rewrite R, Nat.ltb_irrefl.
    rewrite SingleViewCalculator_call_skip.
    rewrite iter_filter_nil; [reflexivity |].
    rewrite distinct_NoDup by exact sub_unique.
    apply filter_none. intros c Hc.
    rewrite (@NoDup_count_1 sub c sub_unique Hc). reflexivity. }
  rewrite P, !bind_ret. unfold evaluate. cbn [length map Nat.leb].
  rewrite bind_ret. cbn [result subscript].
  rewrite SummedViewCalculator_call_eq.
  assert (S1 : forall base,
             positions_where_from base (fun l => negb (mem l out)) sub = []).
  { apply positions_where_none. intros c Hc.
    apply negb_false_iff, mem_In, out_In, Hc. }
  assert (S2 : filter (fun l => mem l out) sub = sub).
  { apply forallb_filter_id, forallb_forall. intros c Hc.
    apply mem_In, out_In, Hc. }
  rewrite S1, S2, !bind_ret. cbn [result subscript].
  unfold TransposedViewCalculator_call.
  rewrite out_length, Nat.eqb_refl. cbn [negb].
  assert (SL : same_label_set sub out = true).
  { unfold same_label_set. apply andb_true_iff.
    split; apply forallb_forall; intros c Hc; apply mem_In.
    - now apply out_In.
    - now apply out_In. }
  rewrite SL. cbn [negb]. fold orders.
  destruct (list_Z_eqb orders (sorted_Z orders)); [reflexivity |].
  unfold transpose. cbn [emit bind ret app].
  assert (R : ndim (converted d a) = length sub) by (symmetry; exact sub_rank).
  rewrite R. destruct orders_valid as (V1 & V2 & V3).
  rewrite V1, V2, V3. reflexivity.
Qed.

End SingleOperand.

(** When the labels already ascend, the call returns the converted
    operand and nothing but the conversion is recorded. *)
Lemma einsum_single_operand_sorted (order : iteration) (sub : list ascii)
      (a : operand) :
  Forall (fun c => In c ascii_letters) sub ->
  NoDup sub -> sub <> [] -> length sub = ndim (as_array a) ->
  Sorted code_le sub ->
  einsum order (Arguments (PyStr sub) [a])
  = ([conversion_event (dtype_of (as_array a)) a],
     inr (converted (dtype_of (as_array a)) a)).
Proof.
  intros L N E R S.
  rewrite (@einsum_single_operand order sub a L N E R).
  rewrite (sorted_labels_id S), (transpose_orders_same N).
  assert (T : list_Z_eqb (map Z.of_nat (seq 0 (length sub)))
                         (sorted_Z (map Z.of_nat (seq 0 (length sub)))) = true).
  { apply ascending_test, Sorted_of_nat_seq. }
  rewrite T. reflexivity.
Qed.

(** * Further properties of the code *)

(** ** The alphabet check and blanks *)

Lemma remove_char_idem c s : remove_char c (remove_char c s) = remove_char c s.
Proof.
  unfold remove_char. induction s as [| x s IH]; simpl; auto.
  destruct (negb (Ascii.eqb x c)) eqn:E; simpl; rewrite ?E, IH; reflexivity.
Qed.

Lemma mem_remove_char c d s :
  c <> d -> mem c (remove_char d s) = mem c s.
Proof.
  intros N. apply eq_true_iff_eq. rewrite !mem_In. unfold remove_char.
  rewrite filter_In, negb_true_iff, Ascii.eqb_neq. intuition congruence.
Qed.

Lemma check_alphabet_blanks (order : iteration) s0 :
  check_alphabet order (remove_char " " s0) = check_alphabet order s0.
Proof.
  unfold check_alphabet.
  rewrite mem_remove_char by discriminate. rewrite remove_char_idem. reflexivity.
Qed.

(** X1.  Blanks anywhere in the subscripts string change nothing: the call
    on the string with its blanks removed is the same computation. *)
Theorem einsum_ignores_blanks (order : iteration) (s0 : list ascii)
        (ops : list operand) :
  einsum order (Arguments (PyStr (remove_char " " s0)) ops)
  = einsum order (Arguments (PyStr s0) ops).
Proof.
  unfold einsum. rewrite !einsum_on_unfold, check_alphabet_blanks. reflexivity.
Qed.

(** The three ways out of lines 165 to 174: a ['.'] anywhere gives the
    ellipsis error; otherwise a character that is neither a letter nor one
    of ['-'], ['>'], [','] nor a blank gives the invalid-subscript error,
    which names such a character of the string; otherwise the string
    without its blanks goes on.  Nothing is recorded in any case, and the
    operands play no part. *)
Lemma check_alphabet_cases (order : iteration) (s0 : list ascii) :
  (In "."%char s0 /\ check_alphabet order s0 = raise NotSupportedError)
  \/ (~ In "."%char s0
      /\ exists c, check_alphabet order s0 = raise (InvalidSubscriptError c)
                   /\ In c s0 /\ c <> " "%char
                   /\ ~ In c ascii_letters /\ ~ In c (py "->,"))
  \/ (~ In "."%char s0
      /\ Forall (fun c => c = " "%char \/ In c ascii_letters \/ In c (py "->,")) s0
      /\ check_alphabet order s0 = ret (remove_char " " s0)).
Proof.
  unfold check_alphabet. destruct (mem "." s0) eqn:D.
  - left. apply mem_In in D. auto.
  - right. assert (ND : ~ In "."%char s0).
    { intros H. apply mem_In in H. congruence. }
    destruct (iter_set order _) as [| c l] eqn:I.
    + right. repeat split; auto. apply Forall_forall. intros c Hc.
      destruct (ascii_dec c " ") as [-> | NB]; [now left | right].
      destruct (mem c ascii_letters) eqn:L; [left; now apply mem_In |].
      destruct (mem c (py "->,")) eqn:A; [right; now apply mem_In |].
      exfalso.
      assert (Hin : In c (iter_set order
                (set_diff (set_diff (remove_char " " s0) ascii_letters) (py "->,")))).
      { apply iter_set_In. unfold set_diff. rewrite !filter_In. unfold remove_char.
        rewrite filter_In, L, A, negb_true_iff, Ascii.eqb_neq. auto. }
      rewrite I in Hin. exact Hin.
    + left. split; auto. exists c. split; [reflexivity |].
      assert (Hin : In c (iter_set order
                (set_diff (set_diff (remove_char " " s0) ascii_letters) (py "->,"))))
        by (rewrite I; now left).
      apply iter_set_In in Hin. unfold set_diff, remove_char in Hin.
      rewrite !filter_In, !negb_true_iff, Ascii.eqb_neq in Hin.
      destruct Hin as (((H1 & H2) & H3) & H4).
      repeat split; auto; intros K; apply mem_In in K; congruence.
Qed.

(** X2.  Both errors of the alphabet check come before the operands are
    looked at: they are raised for every operand list, the empty one
    included, with nothing recorded. *)
Theorem einsum_alphabet_errors (order : iteration) (s0 : list ascii)
        (ops : list operand) :
  (In "."%char s0 ->
   einsum order (Arguments (PyStr s0) ops) = ([], inl NotSupportedError))
  /\ (~ In "."%char s0 ->
      forall c, In c s0 -> c <> " "%char ->
                ~ In c ascii_letters -> ~ In c (py "->,") ->
      exists c',
        einsum order (Arguments (PyStr s0) ops)
        = ([], inl (InvalidSubscriptError c'))
        /\ In c' s0 /\ c' <> " "%char
        /\ ~ In c' ascii_letters /\ ~ In c' (py "->,")).
Proof.
  unfold einsum. rewrite einsum_on_unfold.
  destruct (check_alphabet_cases order s0)
    as [(D & E) | [(ND & c' & E & P) | (ND & F & E)]]; rewrite E.
  - split; [reflexivity | tauto].
  - split; [tauto |]. intros _ c _ _ _ _. exists c'. split; [reflexivity | exact P].
  - split; [tauto |]. intros _ c Hc NB NL NA. exfalso.
    rewrite Forall_forall in F. destruct (F c Hc) as [K | [K | K]]; auto.
Qed.

Lemma einsum_alphabet_errors_witness :
  einsum first_occurrence_order (Arguments (PyStr (py "i.")) []) 
  = ([], inl NotSupportedError)
  /\ exists c',
       einsum last_first_order
              (Arguments (PyStr (py "i$ j")) [sample_vector int8 2])
       = ([], inl (InvalidSubscriptError c'))
       /\ In c' (py "i$ j") /\ c' <> " "%char
       /\ ~ In c' ascii_letters /\ ~ In c' (py "->,").
Proof.
  split.
  - apply (proj1 (einsum_alphabet_errors first_occurrence_order (py "i.") [])).
    simpl. auto.
  - assert (ND : ~ In "."%char (py "i$ j"))
      by (intros H; apply mem_In in H; discriminate H).
    assert (H1 : In "$"%char (py "i$ j")) by (simpl; auto).
    assert (H2 : "$"%char <> " "%char) by discriminate.
    assert (H3 : ~ In "$"%char ascii_letters)
      by (intros H; apply mem_In in H; discriminate H).
    assert (H4 : ~ In "$"%char (py "->,"))
      by (intros H; apply mem_In in H; discriminate H).
    exact (proj2 (einsum_alphabet_errors last_first_order (py "i$ j")
                    [sample_vector int8 2]) ND "$"%char H1 H2 H3 H4).
Defined.

(** ** The arrow and the output subscript *)

(** [find('->')] returns [-1] or the position of an arrow, and then the
    string is the input side, the arrow and the output subscript. *)
Lemma find_arrow_split s :
  find_arrow s = (-1)%Z
  \/ exists k, find_arrow s = Z.of_nat k
               /\ s = firstn k s ++ "-"%char :: ">"%char :: skipn (k + 2) s.
Proof.
  induction s as [| x s IH]; [now left |].
  destruct s as [| y s]; [now left |].
  rewrite find_arrow_cons2.
  destruct (Ascii.eqb x "-" && Ascii.eqb y ">") eqn:E.
  - right. exists 0. apply andb_true_iff in E as [E1 E2].
    apply Ascii.eqb_eq in E1, E2. subst. split; reflexivity.
  - destruct IH as [IH | (k & IH & Sp)].
    + left. rewrite IH. reflexivity.
    + right. exists (S k). rewrite IH.
      assert (N : (Z.of_nat k =? -1)%Z = false) by (apply Z.eqb_neq; lia).
      rewrite N. split; [lia |].
      cbn [firstn skipn Nat.add app]. f_equal. exact Sp.
Qed.

Lemma count_NoDup l : (forall c, In c l -> count c l = 1) -> NoDup l.
Proof.
  intros H. apply NoDup_count. intros c.
  destruct (count c l) as [| n] eqn:K; [lia |].
  assert (Hin : In c l) by (apply count_In; lia).
  specialize (H c Hin). lia.
Qed.

Section Output.

Variable order : iteration.

Lemma parse_output_explicit_inv (s : list ascii) (k : nat) :
  find_arrow s = Z.of_nat k ->
  let input := firstn k s in
  let output := skipn (k + 2) s in
  s = input ++ "-"%char :: ">"%char :: output
  /\ ((exists c, parse_output order s = raise (UnknownOutputLabelError c)
                 /\ In c output /\ ~ In c input)
      \/ ((forall c, In c output -> In c input)
          /\ exists c, parse_output order s = raise (RepeatedOutputLabelError c)
                       /\ 2 <= count c output)
      \/ ((forall c, In c output -> In c input)
          /\ NoDup output
          /\ parse_output order s = ret (input, output))).
Proof.
  intros E input output. split.
  { destruct (find_arrow_split s) as [M | (k' & E' & Sp)]; [lia |].
    assert (k' = k) by lia. subst k'. exact Sp. }
  unfold parse_output. rewrite E.
  assert (N : (Z.of_nat k =? -1)%Z = false) by (apply Z.eqb_neq; lia).
  rewrite N.
  replace (Z.to_nat (Z.of_nat k)) with k by lia.
  replace (Z.to_nat (Z.of_nat k + 2)) with (k + 2) by lia.
  fold input output.
  destruct (iter_set order (set_diff output input)) as [| c l] eqn:I.
  - right.
    assert (Sub : forall c, In c output -> In c input).
    { intros c Hc. destruct (mem c input) eqn:M; [now apply mem_In |].
      exfalso.
      assert (Hin : In c (iter_set order (set_diff output input))).
      { apply iter_set_In. unfold set_diff. apply filter_In. rewrite M. auto. }
      rewrite I in Hin. exact Hin. }
    destruct (filter _ (iter_set order output)) as [| c l] eqn:F.
    + right. repeat split; auto. apply count_NoDup. intros c Hc.
      destruct (Nat.eq_dec (count c output) 1) as [One | NotOne]; [exact One |].
      exfalso.
      assert (Hin : In c (filter (fun key => negb (count key output =? 1))
                                 (iter_set order output))).
      { apply filter_In. split; [now apply iter_set_In |].
        apply negb_true_iff, Nat.eqb_neq. exact NotOne. }
      rewrite F in Hin. exact Hin.
    + left. split; [exact Sub |]. exists c. split; [reflexivity |].
      assert (Hin : In c (filter (fun key => negb (count key output =? 1))
                                 (iter_set order output)))
        by (rewrite F; now left).
      apply filter_In in Hin as [Hin NotOne].
      apply iter_set_In, count_In in Hin.
      apply negb_true_iff, Nat.eqb_neq in NotOne. lia.
  - left. exists c. split; [reflexivity |].
    assert (Hin : In c (iter_set order (set_diff output input)))
      by (rewrite I; now left).
    apply iter_set_In in Hin. unfold set_diff in Hin.
    apply filter_In in Hin as [H1 H2]. split; [exact H1 |].
    intros K. apply mem_In in K. rewrite K in H2. discriminate.
Qed.


Lemma parse_output_implicit_inv (s : list ascii) :
  find_arrow s = (-1)%Z ->
  exists output,
    parse_output order s = ret (s, output)
    /\ Sorted code_le output
    /\ NoDup output
    /\ forall c, In c output <-> count c (remove_char "," s) = 1.
Proof.
  intros E. rewrite (parse_output_implicit order s E).
  set (L := remove_char "," s).
  exists (sorted_labels (filter (fun c => count c L =? 1) L)).
  split; [reflexivity |]. split; [apply sorted_labels_sorted |].
  pose proof (sorted_labels_permutation (filter (fun c => count c L =? 1) L)) as P.
  split.
  - eapply Permutation_NoDup; [exact P | apply NoDup_filter_count_1].
  - intros c. split; intros H.
    + apply (Permutation_in _ (Permutation_sym P)), filter_In in H.
      now apply Nat.eqb_eq.
    + apply (Permutation_in _ P), filter_In. split.
      * apply count_In. lia.
      * now apply Nat.eqb_eq.
Qed.

End Output.

(** X3.  With an arrow at position [k], the three ways out of lines 199 to
    214: an output label that is not on the input side gives the
    unknown-label error, which names such a label; otherwise a label
    written twice in the output gives the repeated-label error, which
    names such a label; otherwise the two sides are returned and, put
    back around the arrow, they are the string. *)
Theorem parse_output_explicit_cases (order : iteration) (s : list ascii)
        (k : nat) :
  find_arrow s = Z.of_nat k ->
  let input := firstn k s in
  let output := skipn (k + 2) s in
  s = input ++ "-"%char :: ">"%char :: output
  /\ ((exists c, parse_output order s = raise (UnknownOutputLabelError c)
                 /\ In c output /\ ~ In c input)
      \/ ((forall c, In c output -> In c input)
          /\ exists c, parse_output order s = raise (RepeatedOutputLabelError c)
                       /\ 2 <= count c output)
      \/ ((forall c, In c output -> In c input)
          /\ NoDup output
          /\ parse_output order s = ret (input, output))).
Proof. exact (@parse_output_explicit_inv order s k). Qed.

(** X4.  Without an arrow the output subscript is made of the labels that
    occur exactly once on the input side, commas apart, each once and in
    ascending order of their character codes. *)
Theorem parse_output_implicit_spec (order : iteration) (s : list ascii) :
  find_arrow s = (-1)%Z ->
  exists output,
    parse_output order s = ret (s, output)
    /\ Sorted code_le output
    /\ NoDup output
    /\ forall c, In c output <-> count c (remove_char "," s) = 1.
Proof. exact (@parse_output_implicit_inv order s). Qed.



Lemma parse_output_explicit_cases_witness :
  let s := py "ij,jk->ki" in
  s = firstn 5 s ++ "-"%char :: ">"%char :: skipn (5 + 2) s
  /\ parse_output last_first_order s = ret (py "ij,jk", py "ki")
  /\ exists c, parse_output last_first_order (py "ij->ik")
               = raise (UnknownOutputLabelError c)
               /\ In c (py "ik") /\ ~ In c (py "ij").
Proof.
  intros s.
  destruct (@parse_output_explicit_cases last_first_order s 5 eq_refl)
    as (Sp & _).
  split; [exact Sp |]. split; [reflexivity |].
  destruct (@parse_output_explicit_cases last_first_order (py "ij->ik") 2 eq_refl)
    as (_ & [U | [(Sub & _) | (Sub & _)]]).
  - exact U.
  - exfalso. specialize (Sub "k"%char (or_intror (or_introl eq_refl))).
    apply mem_In in Sub. discriminate Sub.
  - exfalso. specialize (Sub "k"%char (or_intror (or_introl eq_refl))).
    apply mem_In in Sub. discriminate Sub.
Defined.

Lemma parse_output_implicit_spec_witness :
  exists output,
    parse_output last_first_order (py "ba,ac") = ret (py "ba,ac", output)
    /\ Sorted code_le output
    /\ NoDup output
    /\ forall c, In c output <-> count c (remove_char "," (py "ba,ac")) = 1.
Proof.
  apply (@parse_output_implicit_spec last_first_order (py "ba,ac")).
  reflexivity.
Defined.

(** ** SingleViewCalculator: the subscript it leaves *)

Lemma filter_filter_comm {A} (f g : A -> bool) (l : list A) :
  filter f (filter g l) = filter g (filter f l).
Proof.
  induction l as [| x l IH]; simpl; auto.
  destruct (f x) eqn:F, (g x) eqn:G; simpl; rewrite ?F, ?G, IH; reflexivity.
Qed.

Lemma filter_idem {A} (f : A -> bool) (l : list A) :
  filter f (filter f l) = filter f l.
Proof.
  induction l as [| x l IH]; simpl; auto.
  destruct (f x) eqn:F; simpl; rewrite ?F, IH; reflexivity.
Qed.

Lemma distinct_remove_same x s : forall k,
  nth_error s k = Some x ->
  filter (fun y => negb (Ascii.eqb y x)) (distinct (remove_at k s))
  = filter (fun y => negb (Ascii.eqb y x)) (distinct s).
Proof.
  induction s as [| y s IH]; intros k H; [destruct k; discriminate |].
  destruct k as [| k].
  - injection H as ->. unfold remove_at. cbn [firstn skipn app distinct filter].
    rewrite Ascii.eqb_refl. cbn [negb]. symmetry. apply filter_idem.
  - rewrite remove_at_cons. cbn [distinct filter]. cbn [nth_error] in H.
    destruct (negb (Ascii.eqb y x)).
    + f_equal. rewrite filter_filter_comm, (IH k H). apply filter_filter_comm.
    + rewrite filter_filter_comm, (IH k H). apply filter_filter_comm.
Qed.

(** Dropping an occurrence of a character that is not its first one
    leaves the first occurrences as they are. *)
Lemma distinct_remove_later s : forall j k c,
  j < k -> nth_error s j = Some c -> nth_error s k = Some c ->
  distinct (remove_at k s) = distinct s.
Proof.
  induction s as [| x s IH]; intros j k c L Hj Hk; [destruct j; discriminate |].
  destruct k as [| k]; [lia |].
  rewrite remove_at_cons. cbn [distinct]. f_equal.
  destruct j as [| j].
  - injection Hj as ->. apply distinct_remove_same. exact Hk.
  - rewrite (IH j k c); auto. lia.
Qed.

Lemma positions_from_nth c s : forall base p,
  In p (positions_from base c s) -> nth_error s (p - base) = Some c.
Proof.
  induction s as [| x s IH]; simpl; intros base p H; [tauto |].
  destruct (Ascii.eqb x c) eqn:E.
  - destruct H as [<- | H].
    + rewrite Nat.sub_diag. apply Ascii.eqb_eq in E. now subst.
    + pose proof (positions_from_bounds _ _ _ _ H) as B.
      apply IH in H. replace (p - base) with (S (p - S base)) by lia. exact H.
  - pose proof (positions_from_bounds _ _ _ _ H) as B.
    apply IH in H. replace (p - base) with (S (p - S base)) by lia. exact H.
Qed.

Lemma diag_step_subscript first v axis t v' :
  diag_step first v axis = (t, inr v') ->
  subscript v' = remove_at axis (subscript v).
Proof.
  unfold diag_step. intros H.
  bind_ok_in H t1 r1 t2 H1. bind_ok_in H t3 r2 t4 H2.
  injection H as _ <-. simpl. unfold remove_at. rewrite Nat.add_1_r. reflexivity.
Qed.

Lemma inner_loop_distinct lbl first : forall rest v t v',
  positions lbl (subscript v) = first :: rest ->
  for_each (rev rest) (diag_step first) v = (t, inr v') ->
  distinct (subscript v') = distinct (subscript v).
Proof.
  induction rest as [| ax rest IH] using rev_ind; intros v t v' P H.
  - injection H as _ <-. reflexivity.
  - rewrite rev_app_distr in H. cbn [rev app for_each] in H.
    bind_ok_in H t1 v1 t2 H1.
    apply diag_step_subscript in H1.
    assert (F : first < ax).
    { apply (positions_from_head _ _ _ P). apply in_or_app. simpl. auto. }
    assert (N1 : nth_error (subscript v) first = Some lbl).
    { rewrite <- (Nat.sub_0_r first). apply positions_from_nth.
      fold (positions lbl (subscript v)). rewrite P. now left. }
    assert (N2 : nth_error (subscript v) ax = Some lbl).
    { rewrite <- (Nat.sub_0_r ax). apply positions_from_nth.
      fold (positions lbl (subscript v)). rewrite P. right.
      apply in_or_app. simpl. auto. }
    unfold positions in P.
    change (first :: rest ++ [ax]) with ((first :: rest) ++ [ax]) in P.
    destruct (positions_drop_last _ _ _ _ _ P) as (_ & P' & _).
    rewrite Nat.sub_0_r, <- H1 in P'.
    rewrite (IH v1 t2 v' P' H), H1.
    eapply distinct_remove_later; eassumption.
Qed.

Lemma SingleViewCalculator_call_distinct order a s t v :
  SingleViewCalculator_call order a s = (t, inr v) ->
  distinct (subscript v) = distinct s.
Proof.
  unfold SingleViewCalculator_call. intros H.
  apply (for_each_ok_inv (fun v => distinct (subscript v) = distinct s)) in H; auto.
  clear. intros v lbl t v' P H. unfold collapse_label in H.
  destruct (_ =? 1); [injection H as _ <-; exact P |].
  destruct (positions lbl (subscript v)) as [| first rest] eqn:E;
    [injection H as _ <-; exact P |].
  rewrite (@inner_loop_distinct lbl first rest v t v' E H). exact P.
Qed.

(** X6.  For an array whose rank is the length of its subscript, the
    subscript that SingleViewCalculator leaves is made of the first
    occurrence of each label, in the order of the original subscript,
    whatever the iteration order of the label set; the rank of the result
    is the number of distinct labels. *)
Theorem SingleViewCalculator_keeps_first_occurrences (order : iteration)
        (a : ndarray) (s : list ascii) :
  length s = ndim a ->
  exists t v,
    SingleViewCalculator_call order a s = (t, inr v)
    /\ subscript v = distinct s
    /\ ndim (result v) = length (distinct s).
Proof.
  intros L.
  destruct (@SingleViewCalculator_call_spec order a s L)
    as (t & v & E & N & L' & _).
  exists t, v. split; [exact E |].
  pose proof (@SingleViewCalculator_call_distinct order a s t v E) as D.
  rewrite (distinct_NoDup N) in D. rewrite <- L', D. auto.
Qed.

Lemma SingleViewCalculator_keeps_first_occurrences_witness :
  exists t v,
    SingleViewCalculator_call last_first_order
      {| dtype_of := int8; shape := [2; 3; 2; 3; 2];
         item := fun idx => Z.of_nat (list_sum idx) |} (py "ijiji") = (t, inr v)
    /\ subscript v = distinct (py "ijiji")
    /\ ndim (result v) = length (distinct (py "ijiji")).
Proof.
  apply (@SingleViewCalculator_keeps_first_occurrences last_first_order
           {| dtype_of := int8; shape := [2; 3; 2; 3; 2];
              item := fun idx => Z.of_nat (list_sum idx) |} (py "ijiji")).
  reflexivity.
Defined.

Lemma SingleViewCalculator_call_unique order a s :
  NoDup s ->
  SingleViewCalculator_call order a s = ret {| result := a; subscript := s |}.
Proof.
  intros N. rewrite SingleViewCalculator_call_skip.
  rewrite iter_filter_nil; [reflexivity |].
  rewrite (distinct_NoDup N). apply filter_none. intros c Hc.
  rewrite (@NoDup_count_1 s c N Hc). reflexivity.
Qed.

(** X7.  A subscript without a repeated label is left alone: the array and
    the subscript come back and nothing is recorded.  So the calculator
    applied to its own result changes nothing. *)
Theorem SingleViewCalculator_idempotent (order : iteration)
        (a : ndarray) (s : list ascii) :
  (NoDup s ->
   SingleViewCalculator_call order a s = ret {| result := a; subscript := s |})
  /\ (length s = ndim a ->
      exists t v,
        SingleViewCalculator_call order a s = (t, inr v)
        /\ SingleViewCalculator_call order (result v) (subscript v) = ret v).
Proof.
  split; [apply SingleViewCalculator_call_unique |].
  intros L.
  destruct (@SingleViewCalculator_call_spec order a s L)
    as (t & v & E & N & _).
  exists t, v. split; [exact E |].
  rewrite (@SingleViewCalculator_call_unique order (result v) (subscript v) N).
  destruct v; reflexivity.
Qed.

Lemma SingleViewCalculator_idempotent_witness :
  let a := as_array (sample_matrix int32 3 3) in
  SingleViewCalculator_call last_first_order a (py "ij")
  = ret {| result := a; subscript := py "ij" |}
  /\ exists t v,
       SingleViewCalculator_call last_first_order a (py "ii") = (t, inr v)
       /\ SingleViewCalculator_call last_first_order (result v) (subscript v)
          = ret v.
Proof.
  intros a. split.
  - apply (proj1 (SingleViewCalculator_idempotent last_first_order a (py "ij"))).
    repeat constructor; simpl; intuition discriminate.
  - apply (proj2 (SingleViewCalculator_idempotent last_first_order a (py "ii"))).
    reflexivity.
Defined.

(** ** SummedViewCalculator *)

Lemma positions_where_bounds pr s : forall base p,
  In p (positions_where_from base pr s) -> base <= p < base + length s.
Proof.
  induction s as [| x s IH]; simpl; intros base p H; [tauto |].
  destruct (pr x); simpl in H.
  - destruct H as [<- | H]; [lia |]. apply IH in H. lia.
  - apply IH in H. lia.
Qed.

(** The mask that [sum] builds from the axes to sum marks the labels
    that are to be summed. *)
Lemma mask_of_positions pr s : forall base,
  map (fun p => existsb (Nat.eqb p) (positions_where_from base pr s))
      (seq base (length s))
  = map pr s.
Proof.
  induction s as [| x s IH]; intros base; [reflexivity |].
  cbn [length seq map positions_where_from]. f_equal.
  - destruct (pr x); simpl; [rewrite Nat.eqb_refl; reflexivity |].
    apply not_true_iff_false. intros H. apply existsb_exists in H as (q & Hq & E).
    apply Nat.eqb_eq in E. subst q.
    apply (@positions_where_bounds pr s (S base) base) in Hq. lia.
  - rewrite <- (IH (S base)). apply map_ext_in. intros p Hp. apply in_seq in Hp.
    destruct (pr x); [| reflexivity].
    simpl. assert (E : (p =? base) = false) by (apply Nat.eqb_neq; lia).
    rewrite E. reflexivity.
Qed.

Lemma length_keep_unmasked pr (s : list ascii) : forall (sh : list nat),
  length sh = length s ->
  length (keep_unmasked sh (map pr s)) = length (filter (fun l => negb (pr l)) s).
Proof.
  induction s as [| x s IH]; intros [| d sh] L; try discriminate; [reflexivity |].
  simpl. destruct (pr x); simpl; rewrite IH by (simpl in L; lia); reflexivity.
Qed.

Lemma SummedViewCalculator_call_total (order : iteration) (a : ndarray)
        (input output : list ascii) :
  length input = ndim a ->
  exists t v,
    SummedViewCalculator_call order a input output = (t, inr v)
    /\ subscript v = filter (fun l => mem l output) input
    /\ shape (result v)
       = keep_unmasked (shape a) (map (fun l => negb (mem l output)) input)
    /\ length (subscript v) = ndim (result v)
    /\ dtype_of (result v) = dtype_of a
    /\ ((forall c, In c input -> In c output) -> t = [] /\ result v = a).
Proof.
  intros L. rewrite SummedViewCalculator_call_eq.
  set (pr := fun l => negb (mem l output)).
  assert (R : length (keep_unmasked (shape a) (map pr input))
              = length (filter (fun l => mem l output) input)).
  { rewrite length_keep_unmasked by (symmetry; exact L).
    f_equal. apply filter_ext. intros c. unfold pr. apply negb_involutive. }
  destruct (positions_where_from 0 pr input) as [| ax axes] eqn:P.
  - rewrite bind_ret. eexists _, _. split; [reflexivity |]. cbn [result subscript].
    assert (AllIn : forall c, In c input -> pr c = false).
    { intros c Hc. destruct (pr c) eqn:K; [| reflexivity]. exfalso.
      clear -P Hc K. revert P. generalize 0.
      induction input as [| x l IH]; intros base P; [contradiction |].
      simpl in P. destruct Hc as [-> | Hc].
      - rewrite K in P. discriminate.
      - destruct (pr x); [discriminate | eapply IH; eassumption]. }
    assert (M : map pr input = map (fun _ => false) input).
    { apply map_ext_in. exact AllIn. }
    assert (K : forall sh : list nat, length sh = length input ->
              keep_unmasked sh (map (fun _ => false) input) = sh).
    { clear. induction input as [| x l IH]; intros [| d sh] E; try discriminate;
        [reflexivity |]. simpl. rewrite IH by (simpl in E; lia). reflexivity. }
    repeat split; auto.
    + rewrite M, K by (symmetry; exact L). reflexivity.
    + rewrite <- R, M, K by (symmetry; exact L). reflexivity.
  - assert (Range : forallb (fun ax' => ax' <? ndim a) (ax :: axes) = true).
    { apply forallb_forall. intros q Hq. rewrite <- P in Hq.
      apply (@positions_where_bounds pr input 0 q) in Hq. apply Nat.ltb_lt. lia. }
    unfold sum, astype. cbn [emit bind ret app]. rewrite Range.
    cbn [emit bind ret app fst snd].
    eexists _, _. split; [reflexivity |]. cbn [result subscript shape dtype_of].
    assert (M : map (fun p => existsb (Nat.eqb p) (ax :: axes)) (seq 0 (ndim a))
                = map pr input).
    { rewrite <- P, <- L. apply mask_of_positions. }
    rewrite M. split; [reflexivity |]. split; [reflexivity |].
    split; [unfold ndim; cbn [shape]; symmetry; exact R |].
    split; [reflexivity |].
    intros Sub. exfalso.
    assert (Hin : In ax (positions_where_from 0 pr input)) by (rewrite P; now left).
    clear -Hin Sub. revert Hin. generalize 0.
    induction input as [| x l IH]; intros base Hin; [contradiction |].
    simpl in Hin. unfold pr in Hin at 1.
    assert (Mx : mem x output = true) by (apply mem_In, Sub; now left).
    rewrite Mx in Hin. simpl in Hin.
    eapply IH; [| exact Hin]. intros c Hc. apply Sub. now right.
Qed.

(** X8.  For an array whose rank is the length of its subscript, the
    summation stage succeeds; it removes from the array exactly the axes
    whose label is not in the output subscript and from the subscript
    these labels, keeping the order of the others, so rank and length
    still agree; the element type is kept.  When every label is in the
    output, the input array comes back and nothing is recorded. *)
Theorem SummedViewCalculator_spec (order : iteration) (a : ndarray)
        (input output : list ascii) :
  length input = ndim a ->
  exists t v,
    SummedViewCalculator_call order a input output = (t, inr v)
    /\ subscript v = filter (fun l => mem l output) input
    /\ shape (result v)
       = keep_unmasked (shape a) (map (fun l => negb (mem l output)) input)
    /\ length (subscript v) = ndim (result v)
    /\ dtype_of (result v) = dtype_of a
    /\ ((forall c, In c input -> In c output) -> t = [] /\ result v = a).
Proof. exact (@SummedViewCalculator_call_total order a input output). Qed.

Lemma SummedViewCalculator_spec_witness :
  exists t v,
    SummedViewCalculator_call last_first_order
      (as_array (sample_matrix int8 2 3)) (py "ij") (py "j") = (t, inr v)
    /\ subscript v = filter (fun l => mem l (py "j")) (py "ij")
    /\ shape (result v)
       = keep_unmasked (shape (as_array (sample_matrix int8 2 3)))
                       (map (fun l => negb (mem l (py "j"))) (py "ij"))
    /\ length (subscript v) = ndim (result v)
    /\ dtype_of (result v) = dtype_of (as_array (sample_matrix int8 2 3))
    /\ ((forall c, In c (py "ij") -> In c (py "j")) ->
        t = [] /\ result v = as_array (sample_matrix int8 2 3)).
Proof.
  apply (@SummedViewCalculator_spec last_first_order
           (as_array (sample_matrix int8 2 3)) (py "ij") (py "j")).
  reflexivity.
Defined.

(** ** CombinedViewCalculator *)

Lemma tensordot_loop_spec others : forall first,
  exists r,
    for_each others tensordot0 first
    = (map (fun _ => EvTensordot) others, inr r)
    /\ shape r = shape first ++ concat (map shape others)
    /\ forall idxs idx0,
         Forall2 (fun b i => length i = ndim b) others idxs ->
         length idx0 = ndim first ->
         item r (idx0 ++ concat idxs)
         = (item first idx0 * outer_product_entry others idxs)%Z.
Proof.
  induction others as [| b others IH]; intros first.
  - exists first. cbn. rewrite !app_nil_r. repeat split.
    intros idxs idx0 F _. inversion F; subst. cbn. rewrite app_nil_r. lia.
  - cbn [for_each]. unfold tensordot0 at 1. cbn [emit bind ret app].
    set (acc := {| dtype_of := promote (dtype_of first) (dtype_of b);
                   shape := shape first ++ shape b; item := _ |}).
    destruct (IH acc) as (r & E & Sh & It).
    exists r. rewrite E. cbn [fst snd map app concat].
    split; [reflexivity |]. split.
    + rewrite Sh. unfold acc. cbn [shape]. rewrite <- app_assoc. reflexivity.
    + intros idxs idx0 F L0.
      inversion F as [| ? i ? idxs' Li F']; subst.
      assert (La : length (idx0 ++ i) = ndim acc).
      { unfold ndim, acc. cbn [shape]. rewrite !length_app.
        unfold ndim in L0, Li. lia. }
      cbn [concat outer_product_entry].
      rewrite app_assoc, (It idxs' (idx0 ++ i) F' La). unfold acc at 1. cbn [item].
      rewrite <- L0, firstn_app, skipn_app, Nat.sub_diag, firstn_all, skipn_all.
      cbn [firstn skipn]. rewrite app_nil_r. cbn [app]. lia.
Qed.

Lemma CombinedViewCalculator_call_total (subscripts : list (list ascii)) :
  CombinedViewCalculator_call [] subscripts = raise IndexError
  /\ forall first others,
     exists r,
       CombinedViewCalculator_call (first :: others) subscripts
       = (map (fun _ => EvTensordot) others,
          inr {| result := r; subscript := concat subscripts |})
       /\ shape r = concat (map shape (first :: others))
       /\ forall idxs,
            Forall2 (fun b i => length i = ndim b) (first :: others) idxs ->
            item r (concat idxs) = outer_product_entry (first :: others) idxs.
Proof.
  split; [reflexivity |]. intros first others.
  destruct (tensordot_loop_spec others first) as (r & E & Sh & It).
  exists r. unfold CombinedViewCalculator_call. rewrite E, bind_pair_ok.
  cbn [fst snd ret]. rewrite app_nil_r. split; [reflexivity |].
  split; [exact Sh |].
  intros idxs F. inversion F as [| ? i ? idxs' Li F']; subst.
  exact (It idxs' i F' Li).
Qed.



(** ** TransposedViewCalculator under the invariant of the pipeline *)

Lemma map_nth_seq {A} (d : A) (l : list A) :
  map (fun k => nth k l d) (seq 0 (length l)) = l.
Proof.
  induction l as [| x l IH]; [reflexivity |].
  cbn [length seq map nth]. f_equal.
  rewrite <- seq_shift, map_map. exact IH.
Qed.

Lemma map_nth_error_seq {A} (l : list A) :
  map (nth_error l) (seq 0 (length l)) = map Some l.
Proof.
  induction l as [| x l IH]; [reflexivity |].
  cbn [length seq map nth_error]. f_equal.
  rewrite <- seq_shift, map_map. exact IH.
Qed.

Lemma find_char_nth_error c s :
  In c s -> nth_error s (Z.to_nat (find_char c s)) = Some c.
Proof.
  induction s as [| x s IH]; [contradiction |].
  destruct (ascii_dec x c) as [-> | N].
  - intros _. simpl. rewrite Ascii.eqb_refl. reflexivity.
  - intros [H | H]; [contradiction |].
    rewrite (@find_char_cons_other x c s N H).
    pose proof (find_char_In _ _ H) as B.
    replace (Z.to_nat (find_char c s + 1)) with (S (Z.to_nat (find_char c s))) by lia.
    apply IH, H.
Qed.

(** An ascending list of pairwise distinct integers from
    [base, base + length) is that interval. *)
Lemma sorted_interval (l : list Z) : forall base : nat,
  Sorted Z.le l -> NoDup l ->
  (forall z, In z l -> (Z.of_nat base <= z < Z.of_nat (base + length l))%Z) ->
  l = map Z.of_nat (seq base (length l)).
Proof.
  induction l as [| x l IH]; intros base Srt N B; [reflexivity |].
  apply Sorted_StronglySorted in Srt; [| intros p q r; apply Z.le_trans].
  inversion Srt as [| ? ? Srt' Hd]; subst.
  inversion N as [| ? ? Nx N']; subst.
  assert (Gt : forall z, In z l -> (x < z)%Z).
  { intros z Hz. rewrite Forall_forall in Hd. specialize (Hd z Hz).
    assert (x <> z) by (intros ->; contradiction). lia. }
  pose proof (B x (or_introl eq_refl)) as Bx. cbn [length] in Bx.
  assert (IH' : l = map Z.of_nat (seq (S base) (length l))).
  { apply IH; auto.
    - now apply StronglySorted_Sorted.
    - intros z Hz. specialize (Gt z Hz).
      specialize (B z (or_intror Hz)). cbn [length] in B. lia. }
  cbn [length seq map]. f_equal; [| exact IH'].
  destruct l as [| y l']; [cbn [length] in Bx; lia |].
  specialize (Gt y (or_introl eq_refl)).
  cbn [length seq map] in IH'. injection IH' as Hy _. lia.
Qed.

Section Transposed.

Variable a : ndarray.
Variables input output : list ascii.

Hypothesis input_unique : NoDup input.
Hypothesis input_rank : length input = ndim a.
Hypothesis same_length : length input = length output.
Hypothesis same_labels : same_label_set input output = true.

Lemma output_In c : In c output <-> In c input.
Proof.
  unfold same_label_set in same_labels.
  apply andb_true_iff in same_labels as [H1 H2].
  rewrite forallb_forall in H1, H2. split; intros H.
  - apply mem_In, H2, H.
  - apply mem_In, H1, H.
Qed.

Lemma output_unique : NoDup output.
Proof.
  apply (NoDup_incl_NoDup input_unique); [lia |].
  intros c Hc. now apply output_In.
Qed.

Lemma positions_unique : NoDup (transpose_orders input output).
Proof.
  unfold transpose_orders.
  assert (Inj : forall c c', In c output -> In c' output ->
            find_char c input = find_char c' input -> c = c').
  { intros c c' Hc Hc' E. apply output_In, find_char_nth_error in Hc, Hc'.
    rewrite E in Hc. congruence. }
  pose proof output_unique as N. clear -N Inj.
  induction output as [| x l IH]; [constructor |].
  inversion N as [| ? ? Nx N']; subst. cbn [map]. constructor.
  - intros H. apply in_map_iff in H as (y & E & Hy).
    apply Nx. rewrite <- (Inj y x); auto; simpl; auto.
  - apply IH; auto. intros c c' Hc Hc'. apply Inj; simpl; auto.
Qed.

Lemma positions_range z :
  In z (transpose_orders input output) ->
  (0 <= z < Z.of_nat (length input))%Z.
Proof.
  unfold transpose_orders. intros H. apply in_map_iff in H as (c & <- & Hc).
  now apply find_char_In, output_In.
Qed.

(** The positions ascend only when the two subscripts are the same. *)
Lemma ascending_positions_same :
  Sorted Z.le (transpose_orders input output) -> output = input.
Proof.
  intros Srt.
  assert (E : transpose_orders input output
              = map Z.of_nat (seq 0 (length input))).
  { assert (L : length (transpose_orders input output) = length input).
    { unfold transpose_orders. rewrite length_map. lia. }
    rewrite <- L. apply sorted_interval; auto using positions_unique.
    intros z Hz. rewrite L. apply positions_range in Hz. lia. }
  assert (M : map Some output = map Some input).
  { rewrite <- (map_nth_error_seq input).
    transitivity (map (fun z => nth_error input (Z.to_nat z))
                      (transpose_orders input output)).
    - unfold transpose_orders. rewrite map_map. apply map_ext_in.
      intros c Hc. symmetry. now apply find_char_nth_error, output_In.
    - rewrite E, map_map. apply map_ext. intros k. f_equal. lia. }
  clear -M. revert input M.
  induction output as [| x l IH]; intros [| y l'] M; try discriminate;
    [reflexivity |].
  injection M as -> M. f_equal. now apply IH.
Qed.

Lemma positions_valid :
  forallb (fun z => (- Z.of_nat (ndim a) <=? z)%Z && (z <? Z.of_nat (ndim a))%Z)
          (transpose_orders input output) = true
  /\ map (fun z => Z.to_nat (if (z <? 0)%Z then z + Z.of_nat (ndim a) else z)%Z)
         (transpose_orders input output)
     = map Z.to_nat (transpose_orders input output)
  /\ is_permutation (ndim a) (map Z.to_nat (transpose_orders input output)) = true.
Proof.
  rewrite <- input_rank. split; [| split].
  - apply forallb_forall. intros z Hz. apply positions_range in Hz.
    apply andb_true_iff. split; [apply Z.leb_le | apply Z.ltb_lt]; lia.
  - apply map_ext_in. intros z Hz. apply positions_range in Hz.
    destruct (z <? 0)%Z eqn:E; [apply Z.ltb_lt in E; lia | reflexivity].
  - unfold is_permutation, transpose_orders.
    rewrite !length_map, <- same_length, Nat.eqb_refl.
    simpl. apply forallb_forall. intros p Hp. apply in_seq in Hp.
    apply existsb_exists. exists p. split; [| apply Nat.eqb_refl].
    destruct (nth_error input p) as [c |] eqn:K;
      [| apply nth_error_None in K; lia].
    rewrite map_map. apply in_map_iff. exists c. split.
    + rewrite (@find_char_nth input p c input_unique K). lia.
    + apply output_In. eapply nth_error_In; eassumption.
Qed.

(** Where the axis of a label of the input goes. *)
Lemma index_of_position c :
  In c input ->
  index_of (Z.to_nat (find_char c input))
           (map Z.to_nat (transpose_orders input output))
  = Z.to_nat (find_char c output).
Proof.
  intros Hc. unfold transpose_orders. rewrite map_map.
  assert (Inj : forall x, In x output ->
            Z.to_nat (find_char x input) = Z.to_nat (find_char c input) -> x = c).
  { intros x Hx E. apply output_In, find_char_nth_error in Hx.
    apply find_char_nth_error in Hc. rewrite E in Hx. congruence. }
  apply output_In in Hc. clear -Hc Inj.
  induction output as [| x l IH]; [contradiction |].
  cbn [map index_of].
  destruct (Nat.eqb_spec (Z.to_nat (find_char x input)) (Z.to_nat (find_char c input)))
    as [E | N].
  - rewrite (Inj x (or_introl eq_refl) E). simpl. rewrite Ascii.eqb_refl. reflexivity.
  - assert (Nx : x <> c) by (intros ->; contradiction).
    destruct Hc as [Hc | Hc]; [contradiction |].
    rewrite (@find_char_cons_other x c l Nx Hc).
    pose proof (find_char_In _ _ Hc) as B.
    rewrite IH; auto; [lia |]. intros y Hy. apply Inj. now right.
Qed.

Lemma TransposedViewCalculator_call_total :
  exists t r,
    TransposedViewCalculator_call a input output = (t, inr r)
    /\ shape r
       = map (fun l => nth (Z.to_nat (find_char l input)) (shape a) 0) output
    /\ (forall idx, length idx = length output ->
          item r idx
          = item a (map (fun c => nth (Z.to_nat (find_char c output)) idx 0) input))
    /\ dtype_of r = dtype_of a
    /\ (t = [] <-> input = output).
Proof.
  unfold TransposedViewCalculator_call.
  rewrite same_length, Nat.eqb_refl, same_labels. cbn [negb].
  destruct (list_Z_eqb _ _) eqn:T.
  - apply ascending_test, ascending_positions_same in T.
    exists [], a. split; [reflexivity |].
    assert (Id : forall (L : list nat), length L = length input ->
              map (fun c => nth (Z.to_nat (find_char c input)) L 0) input = L).
    { intros L E.
      transitivity (map (fun z => nth (Z.to_nat z) L 0) (transpose_orders input input)).
      - unfold transpose_orders. rewrite map_map. reflexivity.
      - rewrite (transpose_orders_same input_unique), map_map, <- E.
        etransitivity; [| apply (map_nth_seq 0 L)].
        apply map_ext. intros k. f_equal. lia. }
    rewrite T. repeat split; auto.
    + symmetry. apply Id. symmetry. exact input_rank.
    + intros idx E. rewrite Id; [reflexivity | exact E].
  - unfold transpose. cbn [emit bind ret app].
    destruct positions_valid as (V1 & V2 & V3). rewrite V1, V2, V3.
    eexists _, _. split; [reflexivity |]. cbn [permute_axes shape item dtype_of].
    split; [| split; [| split]].
    + unfold transpose_orders. rewrite !map_map. reflexivity.
    + intros idx E. f_equal.
      rewrite <- input_rank.
      transitivity (map (fun c => nth (Z.to_nat (find_char c output)) idx 0)
                        (map (fun k => nth k input "-"%char)
                             (seq 0 (length input))));
        [| rewrite map_nth_seq; reflexivity].
      rewrite map_map. apply map_ext_in. intros p Hp. apply in_seq in Hp.
      destruct (nth_error input p) as [c |] eqn:K;
        [| apply nth_error_None in K; lia].
      rewrite (nth_error_nth _ _ _ K).
      rewrite <- (@index_of_position c (nth_error_In input p K)).
      rewrite (@find_char_nth input p c input_unique K).
      replace (Z.to_nat (Z.of_nat p)) with p by lia. reflexivity.
    + reflexivity.
    + split; [discriminate |]. intros E. exfalso.
      assert (Srt : Sorted Z.le (transpose_orders input output)).
      { rewrite <- E, (transpose_orders_same input_unique).
        apply Sorted_of_nat_seq. }
      apply ascending_test in Srt. congruence.
Qed.

End Transposed.

(** X10.  For an input subscript without repeated label whose length is the
    rank of the array, and an output subscript of the same length and
    labels, the calculator does not fail: axis [k] of the result is the
    axis of the input that carries the [k]-th output label, and the entry
    at an index is the entry of the input at the index put back in the
    input's order.  Nothing is recorded exactly when the two subscripts are
    the same. *)
Theorem TransposedViewCalculator_correct (a : ndarray)
        (input output : list ascii) :
  NoDup input ->
  length input = ndim a ->
  length input = length output ->
  same_label_set input output = true ->
  exists t r,
    TransposedViewCalculator_call a input output = (t, inr r)
    /\ shape r
       = map (fun l => nth (Z.to_nat (find_char l input)) (shape a) 0) output
    /\ (forall idx, length idx = length output ->
          item r idx
          = item a (map (fun c => nth (Z.to_nat (find_char c output)) idx 0) input))
    /\ dtype_of r = dtype_of a
    /\ (t = [] <-> input = output).
Proof. exact (@TransposedViewCalculator_call_total a input output). Qed.

Lemma TransposedViewCalculator_correct_witness :
  let a := as_array (sample_matrix int32 2 3) in
  exists t r,
    TransposedViewCalculator_call a (py "ij") (py "ji") = (t, inr r)
    /\ shape r
       = map (fun l => nth (Z.to_nat (find_char l (py "ij"))) (shape a) 0) (py "ji")
    /\ (forall idx, length idx = length (py "ji") ->
          item r idx
          = item a (map (fun c => nth (Z.to_nat (find_char c (py "ji"))) idx 0)
                        (py "ij")))
    /\ dtype_of r = dtype_of a
    /\ (t = [] <-> py "ij" = py "ji").
Proof.
  intros a.
  apply (@TransposedViewCalculator_correct a (py "ij") (py "ji")).
  - repeat constructor; simpl; intuition discriminate.
  - reflexivity.
  - reflexivity.
  - reflexivity.
Defined.

(** ** The whole pipeline *)

Lemma find_char_range c s :
  find_char c s = (-1)%Z \/ (0 <= find_char c s < Z.of_nat (length s))%Z.
Proof.
  destruct (in_dec ascii_dec c s) as [H | H].
  - right. now apply find_char_In.
  - left. now apply find_char_none.
Qed.

Lemma check_arrow_error s t e :
  check_arrow s = (t, inl e) -> e = MalformedArrowError.
Proof.
  unfold check_arrow.
  destruct (_ =? _)%Z eqn:Last; [intros H; injection H as _ <-; reflexivity |].
  destruct (negb _) eqn:Minus; [| discriminate].
  apply Z.eqb_neq in Last. apply negb_true_iff, Z.eqb_neq in Minus.
  destruct (nth_error s _) as [c |] eqn:K.
  - destruct (negb _); [intros H; injection H as _ <-; reflexivity | discriminate].
  - exfalso. apply nth_error_None in K.
    destruct (find_char_range "-" s) as [F | F]; lia.
Qed.

Lemma parse_output_error order s t e :
  parse_output order s = (t, inl e) ->
  (exists c, e = UnknownOutputLabelError c)
  \/ (exists c, e = RepeatedOutputLabelError c).
Proof.
  unfold parse_output. destruct (_ =? _)%Z; [discriminate |].
  destruct (iter_set order _) as [| c l];
    [| intros H; injection H as _ <-; left; eauto].
  destruct (filter _ _) as [| c l]; [discriminate |].
  intros H; injection H as _ <-; right; eauto.
Qed.

(** The output subscript that the parser returns has no repeated
    label, and each of its labels is a character of the input side. *)
Lemma parse_output_ok order s t io :
  parse_output order s = (t, inr io) ->
  NoDup (snd io) /\ forall c, In c (snd io) -> In c (fst io).
Proof.
  intros H.
  destruct (find_arrow_split s) as [E | (k & E & _)].
  - destruct (parse_output_implicit_inv order s E) as (out & P & _ & N & I).
    rewrite P in H. injection H as _ <-. cbn [fst snd]. split; [exact N |].
    intros c Hc. apply I in Hc.
    assert (Hin : In c (remove_char "," s)) by (apply count_In; lia).
    unfold remove_char in Hin. now apply filter_In in Hin.
  - destruct (parse_output_explicit_inv order s k E)
      as (_ & [(c & P & _) | [(_ & c & P & _) | (Sub & N & P)]]);
      rewrite P in H; try discriminate.
    injection H as _ <-. cbn [fst snd]. auto.
Qed.

Lemma check_counts_inv input convs t r :
  check_counts input convs = (t, r) ->
  (exists m, r = inl (OperandCountMismatchError m))
  \/ (r = inr (split_comma input)
      /\ length (split_comma input) = length convs).
Proof.
  unfold check_counts, raise, ret.
  destruct (length (split_comma input) <? length convs) eqn:A.
  { intros H. injection H as _ <-. left. eauto. }
  destruct (length convs <? length (split_comma input)) eqn:B.
  { intros H. injection H as _ <-. left. eauto. }
  intros H. injection H as _ <-. right. split; [reflexivity |].
  apply Nat.ltb_ge in A, B. lia.
Qed.

Lemma split_comma_not_nil s : split_comma s <> [].
Proof.
  destruct s as [| x s]; [discriminate |]. simpl.
  destruct (Ascii.eqb x ","); [discriminate |].
  destruct (split_comma s); discriminate.
Qed.

(** The pieces of [split(',')] hold the characters of the string other
    than the commas. *)
Lemma split_comma_In s c :
  In c (concat (split_comma s)) <-> In c s /\ c <> ","%char.
Proof.
  induction s as [| x s IH]; [simpl; tauto |].
  cbn [split_comma]. destruct (Ascii.eqb x ",") eqn:E.
  - apply Ascii.eqb_eq in E. subst. cbn [concat app]. rewrite IH. simpl.
    intuition congruence.
  - apply Ascii.eqb_neq in E.
    destruct (split_comma s) as [| p ps] eqn:S;
      [exfalso; now apply (split_comma_not_nil s) |].
    cbn [concat app] in *. simpl. rewrite IH. intuition congruence.
Qed.

Lemma NoDup_distinct l : NoDup (distinct l).
Proof.
  induction l as [| x l IH]; simpl; constructor.
  - intros H. apply filter_In in H as [_ H].
    rewrite Ascii.eqb_refl in H. discriminate.
  - now apply NoDup_filter.
Qed.

Lemma firstn_succ {A} (l : list A) : forall n x,
  nth_error l n = Some x -> firstn (S n) l = firstn n l ++ [x].
Proof.
  induction l as [| y l IH]; intros [| n] x H; try discriminate.
  - injection H as ->. reflexivity.
  - cbn [firstn app]. f_equal. now apply IH.
Qed.

Lemma parse_loop_spec order subs convs :
  length subs = length convs ->
  forall k b acc,
    b + k = length subs ->
    Forall2 collapsed (firstn b subs) acc ->
    match for_each (seq b k) (parse_operand order subs convs) acc with
    | (_, inl e) => exists m, e = RankMismatchError m
    | (_, inr parsers) => Forall2 collapsed subs parsers
    end.
Proof.
  intros L. induction k as [| k IH]; intros b acc B F.
  - cbn. rewrite Nat.add_0_r in B. subst b. now rewrite firstn_all in F.
  - cbn [seq for_each]. unfold parse_operand at 1.
    destruct (nth_error subs b) as [sub |] eqn:Es;
      [| apply nth_error_None in Es; lia].
    destruct (nth_error convs b) as [a |] eqn:Ea;
      [| apply nth_error_None in Ea; lia].
    destruct (ndim a <? length sub) eqn:C1; [cbn; eauto |].
    destruct (length sub <? ndim a) eqn:C2; [cbn; eauto |].
    apply Nat.ltb_ge in C1, C2.
    assert (R : length sub = ndim a) by lia.
    destruct (@SingleViewCalculator_call_spec order a sub R)
      as (t & v & E & N & L' & _).
    pose proof (@SingleViewCalculator_call_distinct order a sub t v E) as D.
    rewrite (distinct_NoDup N) in D.
    rewrite E, bind_pair_ok. cbn [ret fst snd]. rewrite bind_pair_ok.
    specialize (IH (S b) (acc ++ [v])).
    destruct (for_each (seq (S b) k) _ (acc ++ [v])) as [t' [e | ps]];
      cbn [fst snd]; apply IH; try lia.
    all: rewrite (firstn_succ _ _ Es).
    all: apply Forall2_app; [exact F | repeat constructor; auto].
Qed.

Lemma outcome_bind {A B} (m : M A) (f : A -> M B) :
  outcome (bind m f)
  = match outcome m with
    | inl e => inl e
    | inr x => outcome (f x)
    end.
Proof.
  unfold bind, outcome. destruct m as [t [e | x]]; [reflexivity |].
  cbn [snd]. destruct (f x); reflexivity.
Qed.

Lemma collapsed_rank subs parsers :
  Forall2 collapsed subs parsers ->
  length (concat (map subscript parsers))
  = length (concat (map shape (map result parsers))).
Proof.
  induction 1 as [| sub p subs parsers [_ L] _ IH]; [reflexivity |].
  cbn [map concat]. rewrite !length_app, IH, L. reflexivity.
Qed.

Lemma collapsed_labels subs parsers :
  Forall2 collapsed subs parsers ->
  forall c, In c (concat (map subscript parsers)) <-> In c (concat subs).
Proof.
  induction 1 as [| sub p subs parsers [D _] _ IH]; intros c; [reflexivity |].
  cbn [map concat]. rewrite !in_app_iff, IH, D, distinct_In. reflexivity.
Qed.

Section Evaluate.

Variable order : iteration.
Variable convs : list ndarray.
Variable subs : list (list ascii).
Variable parsers : list view.
Variable output : list ascii.

Hypothesis parsed : Forall2 collapsed subs parsers.
Hypothesis counted : length subs = length convs.
Hypothesis some_operand : subs <> [].
Hypothesis output_unique' : NoDup output.
Hypothesis output_labels :
  forall c, In c output -> c = ","%char \/ In c (concat subs).
Hypothesis no_comma : ~ In ","%char (concat subs).

(** Lines 240 to 248: one view without repeated label that carries
    the labels of all the operands. *)
Lemma evaluate_first_stage :
  exists t v,
    (if 2 <=? length convs then
       c <- CombinedViewCalculator_call (map result parsers)
                                        (map subscript parsers) ;;
       SingleViewCalculator_call order (result c) (subscript c)
     else
       match parsers with
       | p :: _ => ret p
       | [] => raise IndexError
       end) = (t, inr v)
    /\ NoDup (subscript v)
    /\ length (subscript v) = ndim (result v)
    /\ forall c, In c (subscript v) <-> In c (concat subs).
Proof.
  pose proof (Forall2_length parsed) as Lp.
  destruct parsers as [| p ps] eqn:Ep.
  { destruct subs; [contradiction | discriminate]. }
  destruct (2 <=? length convs) eqn:Two.
  - destruct (proj2 (CombinedViewCalculator_call_total (map subscript (p :: ps)))
                (result p) (map result ps)) as (r & E & Sh & _).
    change (result p :: map result ps) with (map result (p :: ps)) in E, Sh.
    rewrite E, bind_pair_ok. cbn [result subscript fst snd].
    assert (R : length (concat (map subscript (p :: ps))) = ndim r).
    { unfold ndim. rewrite Sh. eapply collapsed_rank. exact parsed. }
    destruct (@SingleViewCalculator_call_spec order r _ R)
      as (t & v & E' & N & L' & _).
    pose proof (@SingleViewCalculator_call_distinct order r _ t v E') as D.
    rewrite (distinct_NoDup N) in D.
    rewrite E'. cbn [fst snd]. eexists _, v. split; [reflexivity |].
    repeat split; auto; rewrite D, distinct_In;
      apply (collapsed_labels parsed).
  - apply Nat.leb_gt in Two.
    destruct ps as [| q ps]; [| cbn [length] in Lp; lia].
    inversion parsed as [| sub ? subs' ? C F']; subst.
    inversion F'; subst. destruct C as [D L'].
    exists [], p. split; [reflexivity |]. rewrite D. repeat split.
    + apply NoDup_distinct.
    + rewrite <- D. exact L'.
    + rewrite distinct_In. cbn [concat]. rewrite app_nil_r. auto.
    + rewrite distinct_In. cbn [concat]. rewrite app_nil_r. auto.
Qed.

(** Lines 240 to 256, once the operands have been parsed: the stage
    fails only in the assertions of the transposition, and does so
    exactly when the output subscript contains a comma; otherwise it
    returns an array whose rank is the length of the output subscript. *)
Lemma evaluate_spec :
  (In ","%char output ->
   outcome (evaluate order convs parsers output) = inl AssertionError)
  /\ (~ In ","%char output ->
      exists r, outcome (evaluate order convs parsers output) = inr r
                /\ ndim r = length output).
Proof.
  destruct evaluate_first_stage as (t1 & v & E1 & N1 & L1 & I1).
  destruct (@SummedViewCalculator_call_total order (result v) (subscript v) output L1)
    as (t2 & v' & E2 & S2 & _ & L2 & _ & _).
  assert (N2 : NoDup (subscript v')) by (rewrite S2; now apply NoDup_filter).
  assert (I2 : forall c, In c (subscript v') <-> In c (subscript v) /\ In c output).
  { intros c. rewrite S2, filter_In, mem_In. reflexivity. }
  unfold evaluate. rewrite outcome_bind, E1. cbn [outcome snd].
  rewrite outcome_bind, E2. cbn [outcome snd]. split.
  - intros Comma. unfold TransposedViewCalculator_call.
    destruct (negb (length (subscript v') =? length output)); [reflexivity |].
    assert (NS : same_label_set (subscript v') output = false).
    { unfold same_label_set. apply not_true_iff_false. intros H.
      apply andb_true_iff in H as [_ H]. rewrite forallb_forall in H.
      specialize (H _ Comma). apply mem_In, I2 in H as [H _].
      apply I1 in H. contradiction. }
    rewrite NS. reflexivity.
  - intros NoComma.
    assert (Same : forall c, In c (subscript v') <-> In c output).
    { intros c. rewrite I2, I1. split; [tauto |]. intros H. split; [| exact H].
      destruct (output_labels _ H) as [-> | K]; [contradiction | exact K]. }
    assert (Len : length (subscript v') = length output).
    { apply Permutation_length, NoDup_Permutation; assumption. }
    assert (SL : same_label_set (subscript v') output = true).
    { unfold same_label_set. apply andb_true_iff.
      split; apply forallb_forall; intros c Hc; apply mem_In; now apply Same. }
    destruct (@TransposedViewCalculator_call_total (result v') (subscript v') output
                N2 L2 Len SL) as (t3 & r & E3 & Sh & _).
    exists r. rewrite E3. split; [reflexivity |].
    unfold ndim. rewrite Sh. apply length_map.
Qed.

End Evaluate.

(** The outcomes of a call on a string: an array whose rank is the
    length of the output subscript, which then has no comma; the failed
    assertion of the transposition, exactly for an output subscript with a
    comma; or one of the errors of the validation.  An index out of range
    or an axis error of the array layer never comes out. *)
Lemma einsum_outcome (order : iteration) (s0 : list ascii) (ops : list operand) :
  match outcome (einsum order (Arguments (PyStr s0) ops)) with
  | inr r =>
      exists s io,
        check_alphabet order s0 = ret s /\ parse_output order s = ret io
        /\ ~ In ","%char (snd io) /\ ndim r = length (snd io)
  | inl AssertionError =>
      exists s io,
        check_alphabet order s0 = ret s /\ parse_output order s = ret io
        /\ In ","%char (snd io)
  | inl IndexError | inl AxisError => False
  | inl _ => True
  end.
Proof.
  unfold einsum. rewrite einsum_on_unfold, outcome_bind.
  destruct (check_alphabet_cases order s0)
    as [(_ & E) | [(_ & c & E & _) | (_ & _ & E)]]; rewrite E; cbn [outcome snd raise ret];
    try exact I.
  set (s := remove_char " " s0) in *.
  rewrite outcome_bind.
  destruct ops as [| a ops']; [rewrite convert_inputs_nil; exact I |].
  rewrite convert_inputs_spec. cbn [outcome snd].
  set (convs := map _ (a :: ops')).
  unfold after_conversion. rewrite outcome_bind.
  destruct (check_arrow s) as [ta [ea | u]] eqn:Ea; cbn [outcome snd].
  { rewrite (@check_arrow_error _ _ _ Ea). exact I. }
  rewrite outcome_bind.
  destruct (parse_output order s) as [tp [ep | io]] eqn:Ep; cbn [outcome snd].
  { destruct (@parse_output_error _ _ _ _ Ep) as [(c & ->) | (c & ->)]; exact I. }
  pose proof (pure_eq (parse_output_trace order s) Ep). subst tp.
  destruct (@parse_output_ok _ _ _ _ Ep) as (No & Sub).
  rewrite outcome_bind.
  destruct (check_counts (fst io) convs) as [tc rc] eqn:Ec.
  destruct (@check_counts_inv _ _ _ _ Ec) as [(m & ->) | (-> & Lc)]; cbn [outcome snd];
    [exact I |].
  rewrite outcome_bind.
  pose proof (@parse_loop_spec order (split_comma (fst io)) convs Lc
                (length (split_comma (fst io))) 0 [] eq_refl (Forall2_nil _)) as Pl.
  destruct (for_each _ _ []) as [tl [el | parsers]]; cbn [outcome snd].
  { destruct Pl as (m & ->). exact I. }
  assert (OL : forall c, In c (snd io) ->
                 c = ","%char \/ In c (concat (split_comma (fst io)))).
  { intros c Hc. destruct (ascii_dec c ",") as [-> | N]; [now left | right].
    apply split_comma_In. split; [now apply Sub | exact N]. }
  assert (NC : ~ In ","%char (concat (split_comma (fst io)))).
  { intros H. apply split_comma_In in H as [_ H]. now apply H. }
  destruct (@evaluate_spec order convs (split_comma (fst io)) parsers (snd io)
              Pl Lc (@split_comma_not_nil (fst io)) No OL NC) as (Yes & Not).
  destruct (in_dec ascii_dec ","%char (snd io)) as [Comma | NoComma].
  - rewrite (Yes Comma). exists s, io. repeat split; auto.
  - destruct (Not NoComma) as (r & -> & R). exists s, io. repeat split; auto.
Qed.

(** X11.  Whatever the arguments, a call does not end in an index out of
    range or in an axis error of the array layer: the indexings of lines
    188, 227 and 248 and the axes passed to [diagonal], [rollaxis], [sum]
    and [transpose] are always in range. *)
Theorem einsum_no_index_or_axis_error (order : iteration) (args : arguments) :
  outcome (einsum order args) <> inl IndexError
  /\ outcome (einsum order args) <> inl AxisError.
Proof.
  destruct args as [| [s0 | a] ops]; [split; discriminate | | split; discriminate].
  pose proof (einsum_outcome order s0 ops) as H.
  destruct (outcome (einsum order (Arguments (PyStr s0) ops))) as [e | r];
    [| split; discriminate].
  destruct e; try contradiction; split; discriminate.
Qed.

(** X12.  The rank of the array that a call returns is the length of its
    output subscript, the one written after the arrow or the implicit
    one; that subscript has no comma. *)
Theorem einsum_result_rank (order : iteration) (s0 : list ascii)
        (ops : list operand) t r :
  einsum order (Arguments (PyStr s0) ops) = (t, inr r) ->
  exists s io,
    check_alphabet order s0 = ret s /\ parse_output order s = ret io
    /\ ~ In ","%char (snd io) /\ ndim r = length (snd io).
Proof.
  intros E. pose proof (einsum_outcome order s0 ops) as H.
  rewrite E in H. exact H.
Qed.

Lemma einsum_result_rank_witness :
  exists t r,
    einsum last_first_order
           (Arguments (PyStr (py "ab,bc->ca"))
                      [sample_matrix int8 2 2; sample_matrix int8 2 2])
    = (t, inr r)
    /\ ndim r = 2.
Proof.
  assert (E : exists t r,
             einsum last_first_order
               (Arguments (PyStr (py "ab,bc->ca"))
                  [sample_matrix int8 2 2; sample_matrix int8 2 2])
             = (t, inr r))
    by (vm_compute; eauto).
  destruct E as (t & r & E). exists t, r. split; [exact E |].
  destruct (@einsum_result_rank _ _ _ _ _ E) as (s & io & A & P & _ & R).
  vm_compute in A. injection A as <-.
  vm_compute in P. injection P as <-. exact R.
Defined.

(** X13.  A comma in the output subscript passes the validation when the
    input side has a comma too, and is caught only by the assertions of
    TransposedViewCalculator: a call ends in the failed assertion only for
    such an output subscript, and a call with such an output subscript
    returns no array. *)
Theorem einsum_comma_in_output (order : iteration) (s0 : list ascii)
        (ops : list operand) :
  (outcome (einsum order (Arguments (PyStr s0) ops)) = inl AssertionError ->
   exists s io,
     check_alphabet order s0 = ret s /\ parse_output order s = ret io
     /\ In ","%char (snd io))
  /\ (forall s io,
        check_alphabet order s0 = ret s -> parse_output order s = ret io ->
        In ","%char (snd io) ->
        forall r, outcome (einsum order (Arguments (PyStr s0) ops)) <> inr r).
Proof.
  pose proof (einsum_outcome order s0 ops) as H. split.
  - intros E. rewrite E in H. exact H.
  - intros s io A P Comma r E. rewrite E in H.
    destruct H as (s' & io' & A' & P' & NoComma & _).
    rewrite A in A'. injection A' as <-.
    rewrite P in P'. injection P' as <-. contradiction.
Qed.

Lemma einsum_comma_in_output_witness :
  outcome (einsum first_occurrence_order
                  (Arguments (PyStr (py "i,j->i,j"))
                             [sample_vector int8 2; sample_vector int8 3]))
  = inl AssertionError
  /\ exists s io,
       check_alphabet first_occurrence_order (py "i,j->i,j") = ret s
       /\ parse_output first_occurrence_order s = ret io
       /\ In ","%char (snd io).
Proof.
  assert (E : outcome (einsum first_occurrence_order
                  (Arguments (PyStr (py "i,j->i,j"))
                             [sample_vector int8 2; sample_vector int8 3]))
              = inl AssertionError) by (vm_compute; reflexivity).
  split; [exact E |].
  exact (proj1 (einsum_comma_in_output first_occurrence_order (py "i,j->i,j")
                  [sample_vector int8 2; sample_vector int8 3]) E).
Defined.

(** ** One operand *)

Lemma letters_Forall s :
  forallb (fun c => mem c ascii_letters) s = true ->
  Forall (fun c => In c ascii_letters) s.
Proof.
  intros H. apply Forall_forall. intros c Hc.
  rewrite forallb_forall in H. apply mem_In, H, Hc.
Qed.

(** X14.  For one operand and a non-empty subscript of pairwise distinct
    letters, without arrow, whose length is the rank of the operand: the
    call returns the converted operand with its axes in ascending order of
    their labels.  Axis [k] of the result is the axis that carries the
    [k]-th smallest label, the entry at an index is the entry of the
    operand at the index put back in the operand's order, and when the
    labels already ascend the converted operand itself comes back with
    nothing recorded but the conversion. *)
Theorem einsum_single_operand_law (order : iteration) (sub : list ascii)
        (a : operand) :
  Forall (fun c => In c ascii_letters) sub ->
  NoDup sub -> sub <> [] -> length sub = ndim (as_array a) ->
  exists t r,
    einsum order (Arguments (PyStr sub) [a]) = (t, inr r)
    /\ shape r
       = map (fun l => nth (Z.to_nat (find_char l sub)) (shape (as_array a)) 0)
             (sorted_labels sub)
    /\ (forall idx, length idx = length sub ->
          item r idx
          = item (as_array a)
                 (map (fun c => nth (Z.to_nat (find_char c (sorted_labels sub))) idx 0)
                      sub))
    /\ dtype_of r = dtype_of (as_array a)
    /\ (Sorted code_le sub ->
        t = [conversion_event (dtype_of (as_array a)) a]
        /\ r = converted (dtype_of (as_array a)) a).
Proof.
  intros Le N Ne R.
  set (d := dtype_of (as_array a)). set (out := sorted_labels sub).
  set (a' := converted d a).
  assert (Len : length sub = length out).
  { unfold out. apply Permutation_length, sorted_labels_permutation. }
  assert (SL : same_label_set sub out = true).
  { unfold same_label_set, out. apply andb_true_iff.
    split; apply forallb_forall; intros c Hc; apply mem_In.
    - eapply Permutation_in; [apply sorted_labels_permutation | exact Hc].
    - eapply Permutation_in;
        [apply Permutation_sym, sorted_labels_permutation | exact Hc]. }
  assert (R' : length sub = ndim a') by exact R.
  destruct (@TransposedViewCalculator_call_total a' sub out N R' Len SL)
    as (t & r & E & Sh & It & D & _).
  destruct (@positions_valid a' sub out N R' Len SL) as (V1 & V2 & V3).
  pose proof (@einsum_single_operand order sub a Le N Ne R) as Es.
  pose proof (@einsum_single_operand_sorted order sub a Le N Ne R) as Eo.
  fold d out a' in Es, Eo.
  unfold TransposedViewCalculator_call in E.
  rewrite Len, Nat.eqb_refl, SL in E. cbn [negb] in E.
  destruct (list_Z_eqb _ _).
  - injection E as _ <-. eexists _, a'. split; [exact Es |].
    split; [exact Sh |]. split; [| split; [exact D |]].
    + intros idx Li. apply It. rewrite <- Len. exact Li.
    + intros _. split; reflexivity.
  - unfold transpose in E. cbn [emit bind ret app] in E.
    rewrite V1, V2, V3 in E. injection E as _ <-.
    eexists _, _. split; [exact Es |].
    split; [exact Sh |]. split; [| split; [exact D |]].
    + intros idx Li. apply It. rewrite <- Len. exact Li.
    + intros Srt. apply Eo in Srt. rewrite Es in Srt. discriminate Srt.
Qed.

Lemma einsum_single_operand_law_witness :
  let a := sample_matrix int32 2 3 in
  exists t r,
    einsum last_first_order (Arguments (PyStr (py "ba")) [a]) = (t, inr r)
    /\ shape r = [3; 2]
    /\ item r [2; 1] = item (as_array a) [1; 2].
Proof.
  intros a.
  assert (Le : Forall (fun c => In c ascii_letters) (py "ba")).
  { apply letters_Forall. reflexivity. }
  assert (N : NoDup (py "ba")).
  { repeat constructor; simpl; intuition discriminate. }
  assert (Ne : py "ba" <> []) by discriminate.
  destruct (@einsum_single_operand_law last_first_order (py "ba") a Le N Ne eq_refl)
    as (t & r & E & Sh & It & _).
  exists t, r. split; [exact E |]. split; [exact Sh |].
  exact (It [2; 1] eq_refl).
Defined.

Lemma check_arrow_no_dash s :
  ~ In "-"%char s -> s <> [] -> check_arrow s = ret tt.
Proof.
  intros ND Ne. unfold check_arrow. rewrite (find_char_none _ _ ND).
  assert (E : (-1 =? Z.of_nat (length s) - 1)%Z = false).
  { apply Z.eqb_neq. destruct s; [contradiction | cbn [length]; lia]. }
  rewrite E. reflexivity.
Qed.

(** X15.  The two rank errors, for one operand and a non-empty subscript of
    letters without arrow: more labels than dimensions give the error
    that names operand 0, fewer labels give the error that asks for an
    ellipsis; in both cases the operand has been converted before. *)
Theorem einsum_rank_errors (order : iteration) (sub : list ascii) (a : operand) :
  Forall (fun c => In c ascii_letters) sub -> sub <> [] ->
  (ndim (as_array a) < length sub ->
   einsum order (Arguments (PyStr sub) [a])
   = ([conversion_event (dtype_of (as_array a)) a],
      inl (RankMismatchError (SaysTooManySubscripts 0))))
  /\ (length sub < ndim (as_array a) ->
      einsum order (Arguments (PyStr sub) [a])
      = ([conversion_event (dtype_of (as_array a)) a],
         inl (RankMismatchError SaysMoreDimensions))).
Proof.
  intros Le Ne.
  assert (X : forall c, mem c ascii_letters = false -> ~ In c sub).
  { intros c M H. rewrite Forall_forall in Le.
    apply Le, mem_In in H. congruence. }
  assert (P : parse_output order sub
              = ret (sub, sorted_labels
                            (filter (fun c => count c (remove_char "," sub) =? 1)
                                    (remove_char "," sub)))).
  { apply parse_output_implicit, find_arrow_none, X. reflexivity. }
  assert (C : check_counts sub (map (converted (common_type a [])) [a]) = ret [sub]).
  { unfold check_counts. rewrite split_comma_none by (apply X; reflexivity).
    reflexivity. }
  assert (Es := @einsum_on_stages order sub a [] sub sub _ [sub]
                  (@letters_pass_alphabet order sub Le)
                  (@check_arrow_no_dash sub (X "-"%char eq_refl) Ne) P C).
  unfold einsum. rewrite Es, bind_pair_ok. clear Es.
  cbn [length seq for_each map].
  change (common_type a []) with (dtype_of (as_array a)).
  split; intros H.
  - assert (Po : parse_operand order [sub]
                   [converted (dtype_of (as_array a)) a] [] 0
                 = raise (RankMismatchError (SaysTooManySubscripts 0))).
    { unfold parse_operand. cbn [nth_error].
      change (ndim (converted (dtype_of (as_array a)) a)) with (ndim (as_array a)).
      apply Nat.ltb_lt in H. rewrite H. reflexivity. }
    rewrite Po. reflexivity.
  - assert (Po : parse_operand order [sub]
                   [converted (dtype_of (as_array a)) a] [] 0
                 = raise (RankMismatchError SaysMoreDimensions)).
    { unfold parse_operand. cbn [nth_error].
      change (ndim (converted (dtype_of (as_array a)) a)) with (ndim (as_array a)).
      assert (H' : (ndim (as_array a) <? length sub) = false)
        by (apply Nat.ltb_ge; lia).
      apply Nat.ltb_lt in H. rewrite H', H. reflexivity. }
    rewrite Po. reflexivity.
Qed.

Lemma einsum_rank_errors_witness :
  einsum first_occurrence_order
         (Arguments (PyStr (py "ijk")) [sample_matrix int32 2 3])
  = ([EvAstype int32], inl (RankMismatchError (SaysTooManySubscripts 0)))
  /\ einsum first_occurrence_order
            (Arguments (PyStr (py "i")) [sample_matrix int32 2 3])
     = ([EvAstype int32], inl (RankMismatchError SaysMoreDimensions)).
Proof.
  assert (L3 : Forall (fun c => In c ascii_letters) (py "ijk")).
  { apply letters_Forall. reflexivity. }
  assert (L1 : Forall (fun c => In c ascii_letters) (py "i")).
  { apply letters_Forall. reflexivity. }
  assert (N3 : py "ijk" <> []) by discriminate.
  assert (N1 : py "i" <> []) by discriminate.
  assert (R3 : ndim (as_array (sample_matrix int32 2 3)) < length (py "ijk"))
    by (vm_compute; lia).
  assert (R1 : length (py "i") < ndim (as_array (sample_matrix int32 2 3)))
    by (vm_compute; lia).
  split.
  - exact (proj1 (@einsum_rank_errors first_occurrence_order (py "ijk")
                    (sample_matrix int32 2 3) L3 N3) R3).
  - exact (proj2 (@einsum_rank_errors first_occurrence_order (py "i")
                    (sample_matrix int32 2 3) L1 N1) R1).
Defined.

(** ** Further laws of the convention *)









